(** * A shallow embedding of [code_generator.c]

    The single-pass parser / code generator for the PL/0-like language:
    one function per grammar non-terminal, a global token cursor, a symbol
    table, and the instruction array [vmCode] filled through [emit] and
    patched in place for forward jumps.

    The C globals become the fields of one [state] record which every
    function threads through the monad [Gen].  Besides an ordinary
    [return], a call can end the process ([exit(0)] in [emit]) or read
    through a null pointer ([findSymbol] results that are not checked);
    both are outcomes of the monad.  Recursion is bounded by a fuel
    argument; [codeGenerator] passes a bound that is shown to suffice.
    Two things the generator finds and does not set are parameters: what
    [vmCode] held before the call, and what the blocks that [malloc]
    returns hold.

    Contents: the data of the headers; the state and the monad; the
    generator; sample programs; the vocabulary of the statements; lemmas
    on stores; a weakest-precondition calculus with its tactics; what
    every non-terminal stores (segments, patched placeholders);
    termination; the layout of a block; the capacity of the code array;
    the layout of the jumps and how often each is patched; repeated
    compilation; the chains of [expression] and [term]; the scenarios of
    the specification. *)

From Stdlib Require Import ZArith List String Ascii Bool Arith Lia.
Import ListNotations.

(* ================================================================== *)
(** ** Tokens ([token.h]) *)

(** The token kinds the generator compares against. *)
Inductive token_type : Type :=
| nulsym | identsym | numbersym | plussym | minussym | multsym | slashsym
| oddsym | eqsym | neqsym | lessym | leqsym | gtrsym | geqsym
| lparentsym | rparentsym | commasym | semicolonsym | periodsym
| becomessym | beginsym | endsym | ifsym | thensym | whilesym | dosym
| callsym | constsym | varsym | procsym | writesym | readsym | elsesym.

Definition token_type_dec (a b : token_type) : {a = b} + {a <> b}.
Proof. decide equality. Defined.

Definition token_type_eqb (a b : token_type) : bool :=
  if token_type_dec a b then true else false.

Record Token : Type := mkToken { id : token_type; lexeme : string }.

(** Modelled from the spec: [getCurrentTokenFromIterator] of [token.h]
    ("returns the token at the cursor, or an end-of-stream sentinel token
    past the last element"; the comment in the source says the sentinel has
    id [nulsym]).  The sentinel carries the empty lexeme. *)
Definition end_of_tokens : Token := mkToken nulsym EmptyString.

Definition getCurrentTokenFromIterator (tokenList : list Token) (ind : nat) : Token :=
  nth ind tokenList end_of_tokens.

(* ================================================================== *)
(** ** Symbols and the symbol table ([symbol.h]) *)

Inductive symbol_type : Type := CONST | VAR | PROC.

Definition symbol_type_dec (a b : symbol_type) : {a = b} + {a <> b}.
Proof. decide equality. Defined.

(** Modelled from the spec: the [Symbol] structure of [symbol.h]
    ("name, kind, level, scope: reference to an enclosing Proc-symbol or
    none, payload"; the payload is the constant's value for [CONST] and the
    address for [VAR] and [PROC]).  The source reaches the payload through
    two members, [value] and [address], and a declaration assigns only the
    one that goes with the kind: they are two members here, and the one a
    declaration does not assign keeps what the block held when [malloc]
    returned it (see [malloc_Symbol]).

    A scope pointer is always the block allocated in [proc_declaration],
    whose contents [addSymbol] copied into the table just before it became
    the current scope; the model identifies that block with the position
    of its copy in the table, and [None] is the null pointer. *)
Record Symbol : Type := mkSymbol {
  name : string;
  type : symbol_type;
  level : Z;
  scope : option nat;
  value : Z;
  address : Z
}.

Definition scope_eqb (a b : option nat) : bool :=
  match a, b with
  | None, None => true
  | Some p, Some q => Nat.eqb p q
  | _, _ => false
  end.

(** Modelled from the spec: the symbol table operations of [symbol.h]
    ("insert appends a symbol, never fails, never deduplicates"; "lookup
    returns the most relevant symbol named [name] visible from [scope]", or
    none).  The table is the list of symbols in insertion order; a symbol
    is visible from a scope when it was declared in that scope or in one
    enclosing it, the innermost scope and then the latest declaration
    winning. *)
Definition SymbolTable : Type := list Symbol.

Definition initSymbolTable : SymbolTable := [].

Definition addSymbol (t : SymbolTable) (x : Symbol) : SymbolTable := t ++ [x].

Fixpoint find_in_scope (t : SymbolTable) (sc : option nat) (nm : string)
  : option Symbol :=
  match t with
  | [] => None
  | x :: t' =>
      match find_in_scope t' sc nm with
      | Some y => Some y
      | None =>
          if String.eqb (name x) nm && scope_eqb (scope x) sc
          then Some x else None
      end
  end.

Fixpoint find_from (hops : nat) (t : SymbolTable) (sc : option nat) (nm : string)
  : option Symbol :=
  match find_in_scope t sc nm with
  | Some y => Some y
  | None =>
      match sc, hops with
      | Some p, S hops' =>
          match nth_error t p with
          | Some encl => find_from hops' t (scope encl) nm
          | None => None
          end
      | _, _ => None
      end
  end.

Definition findSymbol (t : SymbolTable) (sc : option nat) (nm : string)
  : option Symbol :=
  find_from (List.length t) t sc nm.

(* ================================================================== *)
(** ** Instructions and the code array ([data.h]) *)

Inductive opcode : Type :=
| LIT | RTN | LOD | STO | CAL | INC | JMP | JPC
| SIO_WRITE | SIO_READ | SIO_HALT
| NEG | ADD | SUB | MUL | DIV | ODD
| EQL | NEQ | LSS | LEQ | GTR | GEQ.

Record Instruction : Type := mkInstruction { op : opcode; r : Z; l : Z; m : Z }.

(** The generator only ever writes [vmCode]: a whole instruction in
    [emit], the [m] field alone when a jump is patched.  The state keeps
    the array as the ordered list of these stores, newest first; the
    contents of the array are recovered from the contents it had when the
    compilation started. *)
Inductive store : Type :=
| StInstr (a : nat) (i : Instruction)     (* vmCode[a] = i     *)
| StM (a : nat) (v : Z).                  (* vmCode[a].m = v   *)

Definition store_addr (w : store) : nat :=
  match w with StInstr a _ => a | StM a _ => a end.

Fixpoint vmCode (vm0 : nat -> Instruction) (ws : list store) (a : nat) : Instruction :=
  match ws with
  | [] => vm0 a
  | StInstr b i :: ws' => if Nat.eqb a b then i else vmCode vm0 ws' a
  | StM b v :: ws' =>
      if Nat.eqb a b
      then let old := vmCode vm0 ws' a in mkInstruction (op old) (r old) (l old) v
      else vmCode vm0 ws' a
  end.

(* ================================================================== *)
(** ** Machine integers *)

(** [int] is 32 bits wide; [unsigned int] arithmetic wraps modulo 2^32 and
    a conversion to [int] reinterprets the bits. *)
Definition wrap_unsigned (z : Z) : Z := (z mod 2 ^ 32)%Z.

Definition to_int (z : Z) : Z :=
  let u := wrap_unsigned z in
  if (u <? 2 ^ 31)%Z then u else (u - 2 ^ 32)%Z.

Definition is_space (c : ascii) : bool :=
  let n := nat_of_ascii c in
  Nat.eqb n 32 || (Nat.leb 9 n && Nat.leb n 13).

Definition digit_of (c : ascii) : option Z :=
  let n := nat_of_ascii c in
  if Nat.leb 48 n && Nat.leb n 57 then Some (Z.of_nat (n - 48)) else None.

Fixpoint atoi_digits (acc : Z) (s : string) : Z :=
  match s with
  | EmptyString => acc
  | String c s' =>
      match digit_of c with
      | Some d => atoi_digits (acc * 10 + d)%Z s'
      | None => acc
      end
  end.

Fixpoint atoi_skip (s : string) : string :=
  match s with
  | EmptyString => EmptyString
  | String c s' => if is_space c then atoi_skip s' else s
  end.

(** [long] is 64 bits wide: [strtol] stops at its bounds. *)
Definition clamp_long (z : Z) : Z :=
  Z.max (- 2 ^ 63) (Z.min z (2 ^ 63 - 1)).

(** [atoi]: leading white space, an optional sign, then decimal digits up
    to the first other character.  A value that does not fit an [int] is
    undefined in C; it is taken here as the C library gives it, which
    converts with [strtol] and cuts the [long] it gets down to an
    [int]. *)
Definition atoi (s : string) : Z :=
  match atoi_skip s with
  | String "-"%char s' => to_int (clamp_long (- atoi_digits 0 s'))
  | String "+"%char s' => to_int (clamp_long (atoi_digits 0 s'))
  | s' => to_int (clamp_long (atoi_digits 0 s'))
  end.

(* ================================================================== *)
(** ** The global state and the monad *)

Record state : Type := mkState {
  tokenList : list Token;          (* _token_list_it.tokenList       *)
  currentTokenInd : nat;           (* _token_list_it.currentTokenInd *)
  currentLevel : Z;                (* unsigned int                   *)
  currentScope : option nat;       (* Symbol*, None for NULL         *)
  symbolTable : SymbolTable;
  vmStores : list store;           (* the stores into vmCode         *)
  nextCodeIndex : nat;
  currentReg : Z
}.

(** How a call can end. *)
Inductive outcome (A : Type) : Type :=
| Ret (a : A) (s : state)        (* the function returned [a]            *)
| Exit (s : state)               (* [exit(0)]: the process is gone       *)
| NullDeref                      (* a read through a null [Symbol*]      *)
| OutOfFuel.                     (* the recursion bound of the model hit *)

Arguments Ret {A} a s.
Arguments Exit {A} s.
Arguments NullDeref {A}.
Arguments OutOfFuel {A}.

Definition Gen (A : Type) : Type := state -> outcome A.

Definition ret {A} (a : A) : Gen A := fun s => Ret a s.

Definition bind {A B} (c : Gen A) (k : A -> Gen B) : Gen B :=
  fun s =>
    match c s with
    | Ret a s' => k a s'
    | Exit s' => Exit s'
    | NullDeref => NullDeref
    | OutOfFuel => OutOfFuel
    end.

Declare Scope gen_scope.
Delimit Scope gen_scope with gen.
Notation "x <- c ;; k" := (bind c (fun x => k))
  (at level 61, c at next level, right associativity) : gen_scope.
Notation "c ;; k" := (bind c (fun _ => k))
  (at level 61, right associativity) : gen_scope.
Local Open Scope gen_scope.
Local Open Scope Z_scope.

Definition out_of_fuel {A} : Gen A := fun _ => OutOfFuel.

(** Reading a field through a pointer that may be null. *)
Definition deref {A} (p : option A) : Gen A :=
  match p with
  | Some x => ret x
  | None => fun _ => NullDeref
  end.

(** *** Helper functions of the source *)

Definition getCurrentToken : Gen Token :=
  fun s => Ret (getCurrentTokenFromIterator (tokenList s) (currentTokenInd s)) s.

Definition getCurrentTokenType : Gen token_type :=
  tok <- getCurrentToken ;; ret (id tok).

Definition nextToken : Gen unit :=
  fun s => Ret tt
    (mkState (tokenList s) (S (currentTokenInd s)) (currentLevel s)
       (currentScope s) (symbolTable s) (vmStores s) (nextCodeIndex s)
       (currentReg s)).

(** *** Accesses to the other globals *)

Definition get_currentLevel : Gen Z := fun s => Ret (currentLevel s) s.
Definition get_currentScope : Gen (option nat) := fun s => Ret (currentScope s) s.
Definition get_nextCodeIndex : Gen nat := fun s => Ret (nextCodeIndex s) s.

Definition set_currentLevel (lv : Z) : Gen unit :=
  fun s => Ret tt
    (mkState (tokenList s) (currentTokenInd s) lv (currentScope s)
       (symbolTable s) (vmStores s) (nextCodeIndex s) (currentReg s)).

Definition set_currentScope (sc : option nat) : Gen unit :=
  fun s => Ret tt
    (mkState (tokenList s) (currentTokenInd s) (currentLevel s) sc
       (symbolTable s) (vmStores s) (nextCodeIndex s) (currentReg s)).

(** [addSymbol(&symbolTable, *newSym)]; the result names the block
    [newSym] (see [Symbol]). *)
Definition add_symbol (x : Symbol) : Gen nat :=
  fun s => Ret (List.length (symbolTable s))
    (mkState (tokenList s) (currentTokenInd s) (currentLevel s)
       (currentScope s) (addSymbol (symbolTable s) x) (vmStores s)
       (nextCodeIndex s) (currentReg s)).

(** [findSymbol(&symbolTable, currentScope, lexeme)] *)
Definition find_symbol (nm : string) : Gen (option Symbol) :=
  fun s => Ret (findSymbol (symbolTable s) (currentScope s) nm) s.

(** [vmCode[a].m = nextCodeIndex] *)
Definition patch (a : nat) : Gen unit :=
  fun s => Ret tt
    (mkState (tokenList s) (currentTokenInd s) (currentLevel s)
       (currentScope s) (symbolTable s)
       (StM a (Z.of_nat (nextCodeIndex s)) :: vmStores s)
       (nextCodeIndex s) (currentReg s)).

(** [currentLevel - sym->level], passed as the [int] argument [L]. *)
Definition level_diff (cur : Z) (x : Symbol) : Z :=
  to_int (wrap_unsigned (cur - level x)).

Definition differs (a b : token_type) : bool := negb (token_type_eqb a b).

Definition symbol_type_eqb (a b : symbol_type) : bool :=
  if symbol_type_dec a b then true else false.

(** [err != 0] *)
Definition failed (err : Z) : bool := negb (err =? 0).

(* ================================================================== *)
(** ** The generator *)

Section Generator.

(** The capacity of [vmCode], a macro of [data.h]. *)
Variable MAX_CODE_LENGTH : nat.

(** What [malloc] hands out: [heap k] is the contents of the block it
    returns when the table holds [k] symbols, before any member is
    assigned.  Every declaration allocates one block and adds it to the
    table before the next one is allocated, so the size of the table
    numbers the blocks of a run.  Nothing is known of these contents, and
    they need not be the same when the generator is run again. *)
Variable heap : nat -> Symbol.

(** [malloc(sizeof(Symbol))] *)
Definition malloc_Symbol : Gen Symbol :=
  fun s => Ret (heap (List.length (symbolTable s))) s.

Definition emit (OP : opcode) (R L M : Z) : Gen nat :=
  fun s =>
    if Nat.eqb (nextCodeIndex s) MAX_CODE_LENGTH
    then Exit s
    else Ret (nextCodeIndex s)
           (mkState (tokenList s) (currentTokenInd s) (currentLevel s)
              (currentScope s) (symbolTable s)
              (StInstr (nextCodeIndex s) (mkInstruction OP R L M) :: vmStores s)
              (S (nextCodeIndex s)) (currentReg s)).

(** One call is one round of the [do ... while] loop; the code after the
    loop is the last branch. *)
Fixpoint const_declaration (fuel : nat) : Gen Z :=
  match fuel with
  | O => out_of_fuel
  | S n =>
      newSym <- malloc_Symbol ;;
      lv <- get_currentLevel ;;
      sc <- get_currentScope ;;
      nextToken ;;
      tok <- getCurrentToken ;;
      if differs (id tok) identsym then ret 3 else
      let nm := lexeme tok in
      nextToken ;;
      ty <- getCurrentTokenType ;;
      if differs ty eqsym then ret 2 else
      nextToken ;;
      tok <- getCurrentToken ;;
      if differs (id tok) numbersym then ret 1 else
      _ <- add_symbol
             (mkSymbol nm CONST lv sc (atoi (lexeme tok)) (address newSym)) ;;
      nextToken ;;
      ty <- getCurrentTokenType ;;
      if token_type_eqb ty commasym then const_declaration n else
      if differs ty semicolonsym then ret 10 else
      nextToken ;;
      ret 0
  end.

Fixpoint var_declaration (fuel : nat) : Gen Z :=
  match fuel with
  | O => out_of_fuel
  | S n =>
      newSym <- malloc_Symbol ;;
      lv <- get_currentLevel ;;
      sc <- get_currentScope ;;
      addr <- get_nextCodeIndex ;;
      nextToken ;;
      tok <- getCurrentToken ;;
      if differs (id tok) identsym then ret 3 else
      _ <- add_symbol
             (mkSymbol (lexeme tok) VAR lv sc (value newSym) (Z.of_nat addr)) ;;
      _ <- emit INC 0 0 1 ;;
      nextToken ;;
      ty <- getCurrentTokenType ;;
      if token_type_eqb ty commasym then var_declaration n else
      if differs ty semicolonsym then ret 4 else
      nextToken ;;
      ret 0
  end.

(** The non-terminals, from the leaves up.  [term_loop],
    [expression_loop], [statement_list] and [proc_declaration] are the
    [while] loops of the source, one call per test of the loop condition. *)
Fixpoint factor (fuel : nat) {struct fuel} : Gen Z :=
  match fuel with
  | O => out_of_fuel
  | S n =>
      tok <- getCurrentToken ;;
      p <- find_symbol (lexeme tok) ;;
      match p with
      | None => ret 15
      | Some currSym =>
          ty <- getCurrentTokenType ;;
          if token_type_eqb ty identsym then
            if symbol_type_eqb (type currSym) PROC then ret 14
            else if symbol_type_eqb (type currSym) CONST then
              _ <- emit LIT 0 0 (value currSym) ;;
              nextToken ;;
              ret 0
            else
              lv <- get_currentLevel ;;
              _ <- emit LOD 0 (level_diff lv currSym) (address currSym) ;;
              nextToken ;;
              ret 0
          else if token_type_eqb ty numbersym then
            tok <- getCurrentToken ;;
            _ <- emit LIT 0 0 (atoi (lexeme tok)) ;;
            nextToken ;;
            ret 0
          else if token_type_eqb ty lparentsym then
            nextToken ;;
            err <- expression n ;;
            if failed err then ret err else
            ty <- getCurrentTokenType ;;
            if differs ty rparentsym then ret 13 else
            nextToken ;;
            ret 0
          else ret 14
      end
  end

with term_loop (fuel : nat) (op : token_type) {struct fuel} : Gen Z :=
  match fuel with
  | O => out_of_fuel
  | S n =>
      if token_type_eqb op multsym || token_type_eqb op slashsym then
        nextToken ;;
        err <- factor n ;;
        if failed err then ret err else
        _ <- (if token_type_eqb op multsym then emit MUL 0 0 0
              else emit DIV 0 0 0) ;;
        term_loop n op
      else ret 0
  end

with term (fuel : nat) {struct fuel} : Gen Z :=
  match fuel with
  | O => out_of_fuel
  | S n =>
      op <- getCurrentTokenType ;;
      err <- factor n ;;
      if failed err then ret err else
      term_loop n op
  end

with expression_loop (fuel : nat) (op : token_type) {struct fuel} : Gen Z :=
  match fuel with
  | O => out_of_fuel
  | S n =>
      if token_type_eqb op plussym || token_type_eqb op minussym then
        nextToken ;;
        err <- term n ;;
        if failed err then ret err else
        _ <- (if token_type_eqb op plussym then emit ADD 0 0 0
              else emit SUB 0 0 0) ;;
        expression_loop n op
      else ret 0
  end

with expression (fuel : nat) {struct fuel} : Gen Z :=
  match fuel with
  | O => out_of_fuel
  | S n =>
      op <- getCurrentTokenType ;;
      let rest : Gen Z :=
        err <- term n ;;
        if failed err then ret err else
        expression_loop n op in
      if token_type_eqb op plussym || token_type_eqb op minussym then
        nextToken ;;
        err <- term n ;;
        if failed err then ret err else
        (if token_type_eqb op minussym
         then _ <- emit NEG 0 0 0 ;; ret tt else ret tt) ;;
        rest
      else rest
  end.

Definition condition (fuel : nat) : Gen Z :=
  match fuel with
  | O => out_of_fuel
  | S n =>
      let rest : Gen Z :=
        err <- expression n ;;
        if failed err then ret err else
        ret 0 in
      ty <- getCurrentTokenType ;;
      if token_type_eqb ty oddsym then
        nextToken ;;
        err <- expression n ;;
        if failed err then ret err else
        _ <- emit ODD 0 0 0 ;;
        rest
      else
        err <- expression n ;;
        if failed err then ret err else
        ty <- getCurrentTokenType ;;
        if token_type_eqb ty eqsym then
          _ <- emit EQL 0 0 0 ;; nextToken ;; rest
        else if token_type_eqb ty neqsym then
          _ <- emit NEQ 0 0 0 ;; nextToken ;; rest
        else if token_type_eqb ty leqsym then
          _ <- emit LEQ 0 0 0 ;; nextToken ;; rest
        else if token_type_eqb ty geqsym then
          _ <- emit GEQ 0 0 0 ;; nextToken ;; rest
        else if token_type_eqb ty lessym then
          _ <- emit LSS 0 0 0 ;; nextToken ;; rest
        else if token_type_eqb ty gtrsym then
          _ <- emit GTR 0 0 0 ;; nextToken ;; rest
        else ret 12
  end.

Fixpoint statement_list (fuel : nat) {struct fuel} : Gen Z :=
  match fuel with
  | O => out_of_fuel
  | S n =>
      ty <- getCurrentTokenType ;;
      if token_type_eqb ty semicolonsym then
        nextToken ;;
        err <- statement n ;;
        if failed err then ret err else
        statement_list n
      else
        if differs ty endsym then ret 10 else
        nextToken ;;
        ret 0
  end

with statement (fuel : nat) {struct fuel} : Gen Z :=
  match fuel with
  | O => out_of_fuel
  | S n =>
      ty <- getCurrentTokenType ;;
      if token_type_eqb ty identsym then
        tok <- getCurrentToken ;;
        p <- find_symbol (lexeme tok) ;;
        currSym <- deref p ;;
        sc <- get_currentScope ;;
        if negb (scope_eqb (scope currSym) sc) then ret 15 else
        if negb (symbol_type_eqb (type currSym) VAR) then ret 16 else
        nextToken ;;
        ty <- getCurrentTokenType ;;
        if differs ty becomessym then ret 7 else
        nextToken ;;
        err <- expression n ;;
        if failed err then ret err else
        ret 0
      else if token_type_eqb ty callsym then
        nextToken ;;
        tok <- getCurrentToken ;;
        if differs (id tok) identsym then ret 8 else
        p <- find_symbol (lexeme tok) ;;
        currSym <- deref p ;;
        sc <- get_currentScope ;;
        if negb (scope_eqb (scope currSym) sc) then ret 15 else
        if symbol_type_eqb (type currSym) PROC then
          lv <- get_currentLevel ;;
          _ <- emit CAL 0 (level_diff lv currSym) (address currSym) ;;
          nextToken ;;
          ret 0
        else ret 17
      else if token_type_eqb ty beginsym then
        nextToken ;;
        err <- statement n ;;
        if failed err then ret err else
        statement_list n
      else if token_type_eqb ty ifsym then
        nextToken ;;
        err <- condition n ;;
        if failed err then ret err else
        ty <- getCurrentTokenType ;;
        if differs ty thensym then ret 9 else
        nextToken ;;
        jmp <- get_nextCodeIndex ;;
        _ <- emit JPC 0 0 0 ;;
        err <- statement n ;;
        if failed err then ret err else
        patch jmp ;;
        ty <- getCurrentTokenType ;;
        if token_type_eqb ty elsesym then
          jmp2 <- get_nextCodeIndex ;;
          _ <- emit JMP 0 0 0 ;;
          nextToken ;;
          patch jmp2 ;;
          err <- statement n ;;
          if failed err then ret err else
          patch jmp ;;
          ret 0
        else ret 0
      else if token_type_eqb ty whilesym then
        jmp <- get_nextCodeIndex ;;
        nextToken ;;
        err <- condition n ;;
        if failed err then ret err else
        jmp2 <- get_nextCodeIndex ;;
        _ <- emit JPC 0 0 0 ;;
        ty <- getCurrentTokenType ;;
        if differs ty dosym then ret 11 else
        nextToken ;;
        err <- statement n ;;
        if failed err then ret err else
        _ <- emit JMP 0 0 (Z.of_nat jmp) ;;
        patch jmp2 ;;
        ret 0
      else if token_type_eqb ty writesym then
        nextToken ;;
        tok <- getCurrentToken ;;
        if differs (id tok) identsym then ret 3 else
        p <- find_symbol (lexeme tok) ;;
        currSym <- deref p ;;
        sc <- get_currentScope ;;
        if negb (scope_eqb (scope currSym) sc) then ret 15 else
        if symbol_type_eqb (type currSym) PROC then ret 18 else
        lv <- get_currentLevel ;;
        _ <- emit LOD 0 (level_diff lv currSym) (address currSym) ;;
        _ <- emit SIO_WRITE 0 0 0 ;;
        nextToken ;;
        ret 0
      else if token_type_eqb ty readsym then
        _ <- emit SIO_READ 0 0 0 ;;
        nextToken ;;
        tok <- getCurrentToken ;;
        if differs (id tok) identsym then ret 3 else
        p <- find_symbol (lexeme tok) ;;
        currSym <- deref p ;;
        sc <- get_currentScope ;;
        if negb (scope_eqb (scope currSym) sc) then ret 15 else
        if negb (symbol_type_eqb (type currSym) VAR) then ret 19 else
        nextToken ;;
        lv <- get_currentLevel ;;
        _ <- emit STO 0 (level_diff lv currSym) (address currSym) ;;
        ret 0
      else ret 0
  end.

Fixpoint proc_declaration (fuel : nat) {struct fuel} : Gen Z :=
  match fuel with
  | O => out_of_fuel
  | S n =>
      ty <- getCurrentTokenType ;;
      if differs ty procsym then ret 0 else
      tempSym <- get_currentScope ;;
      blk <- malloc_Symbol ;;
      lv <- get_currentLevel ;;
      addr <- get_nextCodeIndex ;;
      nextToken ;;
      tok <- getCurrentToken ;;
      if differs (id tok) identsym then ret 3 else
      newSym <- add_symbol
                  (mkSymbol (lexeme tok) PROC lv tempSym (value blk)
                     (Z.of_nat addr)) ;;
      nextToken ;;
      ty <- getCurrentTokenType ;;
      if differs ty semicolonsym then ret 5 else
      nextToken ;;
      set_currentScope (Some newSym) ;;
      lv <- get_currentLevel ;;
      set_currentLevel (wrap_unsigned (lv + 1)) ;;
      err <- block n ;;
      if failed err then ret err else
      lv <- get_currentLevel ;;
      set_currentLevel (wrap_unsigned (lv - 1)) ;;
      set_currentScope tempSym ;;
      ty <- getCurrentTokenType ;;
      if differs ty semicolonsym then ret 5 else
      nextToken ;;
      proc_declaration n
  end

with block (fuel : nat) {struct fuel} : Gen Z :=
  match fuel with
  | O => out_of_fuel
  | S n =>
      let err := 0 in
      jmpAddr <- emit JMP 0 0 0 ;;
      ty <- getCurrentTokenType ;;
      err <- (if token_type_eqb ty constsym && (err =? 0)
              then const_declaration n else ret err) ;;
      if failed err then ret err else
      ty <- getCurrentTokenType ;;
      err <- (if token_type_eqb ty varsym && (err =? 0)
              then var_declaration n else ret err) ;;
      if failed err then ret err else
      ty <- getCurrentTokenType ;;
      err <- (if token_type_eqb ty procsym && (err =? 0)
              then proc_declaration n else ret err) ;;
      if failed err then ret err else
      patch jmpAddr ;;
      _ <- emit INC 0 0 4 ;;
      err <- statement n ;;
      if failed err then ret err else
      _ <- emit RTN 0 0 0 ;;
      ret 0
  end.

Definition program (fuel : nat) : Gen Z :=
  err <- block fuel ;;
  if failed err then ret err else
  ty <- getCurrentTokenType ;;
  if token_type_eqb ty periodsym then
    nextToken ;;
    _ <- emit SIO_HALT 0 0 3 ;;
    ret 0
  else ret 6.

(** [printEmittedCodes]: one line per instruction, in address order; the
    lines are given as the instructions whose four fields are printed.
    [vm0] is what [vmCode] held when the compilation started. *)
Definition printEmittedCodes (vm0 : nat -> Instruction) (s : state)
  : list Instruction :=
  map (vmCode vm0 (vmStores s)) (seq 0 (nextCodeIndex s)).

(** The globals as [codeGenerator] sets them before it calls [program]. *)
Definition entry_state (tokens : list Token) : state :=
  mkState tokens 0 0 None initSymbolTable [] 0 0.

(** The recursion bound given to [program]; [codeGenerator_total] below
    shows that it is never reached. *)
Definition fuel_of (tokens : list Token) : nat :=
  16 * (List.length tokens + 1).

(** What a caller of [codeGenerator] observes: the error code returned
    together with the lines written to [out], or the end of the process. *)
Inductive result : Type :=
| Returned (err : Z) (printed : list Instruction)
| Exited                         (* [exit(0)] in [emit]               *)
| NullRead                       (* a read through a null [Symbol*]   *)
| Unfinished.                    (* the recursion bound was reached   *)

Definition codeGenerator (tokens : list Token) (vm0 : nat -> Instruction)
  : result :=
  match program (fuel_of tokens) (entry_state tokens) with
  | Ret err s =>
      if failed err then Returned err []
      else Returned err (printEmittedCodes vm0 s)
  | Exit _ => Exited
  | NullDeref => NullRead
  | OutOfFuel => Unfinished
  end.

(** The stores into [vmCode] made by the call, newest first. *)
Definition final_stores (tokens : list Token) : list store :=
  match program (fuel_of tokens) (entry_state tokens) with
  | Ret _ s => vmStores s
  | Exit s => vmStores s
  | _ => []
  end.

(** The contents of [vmCode] once [codeGenerator] is over. *)
Definition vmCode_after (tokens : list Token) (vm0 : nat -> Instruction)
  : nat -> Instruction :=
  vmCode vm0 (final_stores tokens).

End Generator.

(* ================================================================== *)
(** ** The programs of the scenarios, as token sequences *)

Module Programs.
Local Open Scope string_scope.

Definition tk (t : token_type) (s : string) : Token := mkToken t s.

Definition x_ : Token := tk identsym "x".
Definition becomes_ : Token := tk becomessym ":=".

(** [var x; begin] ... [end.] *)
Definition with_var_x (body : list Token) : list Token :=
  [tk varsym "var"; x_; tk semicolonsym ";"; tk beginsym "begin"]
    ++ body ++ [tk endsym "end"; tk periodsym "."].

(** [const a = 5; var b; begin b := a + 1; write b end.] *)
Definition scenario_1 : list Token :=
  [tk constsym "const"; tk identsym "a"; tk eqsym "="; tk numbersym "5";
   tk semicolonsym ";";
   tk varsym "var"; tk identsym "b"; tk semicolonsym ";";
   tk beginsym "begin";
   tk identsym "b"; becomes_; tk identsym "a"; tk plussym "+";
   tk numbersym "1"; tk semicolonsym ";";
   tk writesym "write"; tk identsym "b";
   tk endsym "end"; tk periodsym "."].

(** [var x; begin call x end.] *)
Definition scenario_3 : list Token := with_var_x [tk callsym "call"; x_].

(** [var x; begin x := x + x end.] *)
Definition sum : list Token :=
  with_var_x [x_; becomes_; x_; tk plussym "+"; x_].

(** [var x; begin x := - x end.] *)
Definition negation : list Token :=
  with_var_x [x_; becomes_; tk minussym "-"; x_].

(** [var x; begin x := x * x end.] *)
Definition product : list Token :=
  with_var_x [x_; becomes_; x_; tk multsym "*"; x_].

(** [var x; begin if odd x then x := x end.] *)
Definition if_odd : list Token :=
  with_var_x [tk ifsym "if"; tk oddsym "odd"; x_; tk thensym "then";
              x_; becomes_; x_].

(** [var x; begin if x = x then x := x end.] *)
Definition if_equal : list Token :=
  with_var_x [tk ifsym "if"; x_; tk eqsym "="; x_; tk thensym "then";
              x_; becomes_; x_].

(** [var x; begin if odd x x then x := x else x := x end.]: the condition
    is written the way [condition] reads it, so that the statement
    compiles. *)
Definition if_else : list Token :=
  with_var_x [tk ifsym "if"; tk oddsym "odd"; x_; x_; tk thensym "then";
              x_; becomes_; x_; tk elsesym "else"; x_; becomes_; x_].

(** [const a = 5; begin write a end.] *)
Definition write_constant : list Token :=
  [tk constsym "const"; tk identsym "a"; tk eqsym "="; tk numbersym "5";
   tk semicolonsym ";";
   tk beginsym "begin"; tk writesym "write"; tk identsym "a";
   tk endsym "end"; tk periodsym "."].

(** Programs that use the undeclared name [y]. *)
Definition assign_undeclared : list Token :=
  [tk identsym "y"; becomes_; tk numbersym "1"; tk periodsym "."].
Definition call_undeclared : list Token :=
  [tk callsym "call"; tk identsym "y"; tk periodsym "."].
Definition write_undeclared : list Token :=
  [tk writesym "write"; tk identsym "y"; tk periodsym "."].
Definition read_undeclared : list Token :=
  [tk readsym "read"; tk identsym "y"; tk periodsym "."].
(** [var x; begin x := y end.] *)
Definition factor_undeclared : list Token :=
  with_var_x [x_; becomes_; tk identsym "y"].

End Programs.

(* ================================================================== *)
(** ** Stores: segments, patch counts *)

(** [seg lo t hi]: the stores [t] (newest first) are what a stretch of
    the generator does that starts with [nextCodeIndex = lo] and ends with
    [nextCodeIndex = hi]: instructions are written at [lo], [lo+1], ...
    in turn, and a patch only touches an address written in the stretch. *)
Inductive seg (lo : nat) : list store -> nat -> Prop :=
| seg_nil : seg lo [] lo
| seg_emit t hi i : seg lo t hi -> seg lo (StInstr hi i :: t) (S hi)
| seg_patch t hi a v : seg lo t hi -> (lo <= a < hi)%nat -> seg lo (StM a v :: t) hi.

(** How many times the [m] field at address [a] was patched. *)
Fixpoint patches (a : nat) (t : list store) : nat :=
  match t with
  | [] => 0
  | StInstr _ _ :: t' => patches a t'
  | StM b _ :: t' => ((if Nat.eqb a b then 1 else 0) + patches a t')%nat
  end.

(** A jump emitted with target 0, to be filled in later. *)
Definition placeholder (o : opcode) : Instruction := mkInstruction o 0 0 0.

(** Every placeholder [JMP] of the stretch is patched once, every
    placeholder [JPC] once or twice. *)
Definition balanced (t : list store) : Prop :=
  forall a,
    (In (StInstr a (placeholder JMP)) t -> patches a t = 1%nat) /\
    (In (StInstr a (placeholder JPC)) t -> (1 <= patches a t <= 2)%nat).

(** An instruction that is complete when it is emitted: anything but a
    jump with target 0. *)
Definition settled (i : Instruction) : Prop :=
  i <> placeholder JMP /\ i <> placeholder JPC.

(** [compiled D lo t hi]: the stores [t] (newest first) are those of a
    piece of program compiled from [nextCodeIndex = lo] up to
    [nextCodeIndex = hi], with its jumps laid out the way [statement] and
    [block] lay them out, and [D] lists the addresses of the conditional
    jumps of the [if] statements that have an [else].  The values patched
    in are left open. *)
Inductive compiled : list nat -> nat -> list store -> nat -> Prop :=
| c_nil lo :
    compiled [] lo [] lo
| c_instr D lo t hi i :
    (* an instruction that is never patched *)
    compiled D lo t hi -> settled i ->
    compiled D lo (StInstr hi i :: t) (S hi)
| c_app D1 D2 lo t1 mid t2 hi :
    (* one piece after another *)
    compiled D1 lo t1 mid -> compiled D2 mid t2 hi ->
    compiled (D2 ++ D1) lo (t2 ++ t1) hi
| c_if Dc D lo tc j t hi v :
    (* if without else: condition [tc], [JPC] at [j], then-branch [t],
       the patch of line 517 *)
    compiled Dc lo tc j -> compiled D (S j) t hi ->
    compiled (D ++ Dc) lo
      (StM j v :: t ++ StInstr j (placeholder JPC) :: tc) hi
| c_if_else Dc D1 D2 lo tc j t1 j2 t2 hi v1 v2 v3 :
    (* if with else: condition [tc], [JPC] at [j], then-branch [t1], the
       patch of line 517, [JMP] at [j2], the patch of line 529,
       else-branch [t2], the patch of line 536 *)
    compiled Dc lo tc j -> compiled D1 (S j) t1 j2 ->
    compiled D2 (S j2) t2 hi ->
    compiled (j :: D2 ++ D1 ++ Dc) lo
      (StM j v3 :: t2 ++ StM j2 v2 :: StInstr j2 (placeholder JMP)
         :: StM j v1 :: t1 ++ StInstr j (placeholder JPC) :: tc) hi
| c_while Dc D lo tc j t q v :
    (* while: condition [tc] from [lo] on, [JPC] at [j], body [t], the
       jump back to [lo] at [q], the patch of line 565 *)
    compiled Dc lo tc j -> compiled D (S j) t q -> (1 <= lo)%nat ->
    compiled (D ++ Dc) lo
      (StM j v :: StInstr q (mkInstruction JMP 0 0 (Z.of_nat lo))
         :: t ++ StInstr j (placeholder JPC) :: tc) (S q)
| c_block Dd Ds j td p ts q v :
    (* block: [JMP] at [j], declarations [td], the patch of line 268,
       [INC 0 0 4] at [p], statement [ts], [RTN] at [q] *)
    compiled Dd (S j) td p -> compiled Ds (S p) ts q ->
    compiled (Ds ++ Dd) j
      (StInstr q (mkInstruction RTN 0 0 0) :: ts
         ++ StInstr p (mkInstruction INC 0 0 4) :: StM j v
         :: td ++ [StInstr j (placeholder JMP)]) (S q).


(* ================================================================== *)
(** ** Vocabulary of the statements below *)

(** [wp F c Q s]: when [c] runs from [s] and returns, [Q] holds of the
    value and the state; [F] is what running into the recursion bound
    counts as. *)
Definition wp {A} (F : Prop) (c : Gen A) (Q : A -> state -> Prop) (s : state) : Prop :=
  match c s with
  | Ret a s' => Q a s'
  | Exit _ => True
  | NullDeref => True
  | OutOfFuel => F
  end.

(** [reaches s0 s t]: from [s0] the generator got to [s] by the stores
    [t], without touching the token list. *)
Definition reaches (s0 s : state) (t : list store) : Prop :=
  tokenList s = tokenList s0 /\
  vmStores s = t ++ vmStores s0 /\
  seg (nextCodeIndex s0) t (nextCodeIndex s).

(** What every non-terminal does between the state [s0] it is called in
    and the state [s] it returns in, [v] being its error code. *)
Definition tidy (s0 : state) (v : Z) (s : state) : Prop :=
  exists t, reaches s0 s t /\ (v = 0%Z -> balanced t).

Definition sound (c : Gen Z) : Prop := forall s, wp True c (tidy s) s.

(** A statement is compiled after the leading jump of its block: the
    address of a loop is never 0. *)
Definition sound_in_block (c : Gen Z) : Prop :=
  forall s, (1 <= nextCodeIndex s)%nat -> wp True c (tidy s) s.




(** Tokens left in front of the cursor. *)
Definition remaining (s : state) : nat :=
  List.length (tokenList s) - currentTokenInd s.

(** The cursor only moves forward. *)
Definition advances (s : state) (v : Z) (s' : state) : Prop :=
  tokenList s' = tokenList s /\ (currentTokenInd s <= currentTokenInd s')%nat.

(** A factor or a term that succeeds started on a token of the list. *)
Definition consumes (s : state) (v : Z) (s' : state) : Prop :=
  tokenList s' = tokenList s /\ (currentTokenInd s <= currentTokenInd s')%nat /\
  (v = 0%Z -> (currentTokenInd s < List.length (tokenList s))%nat).

(** [f] comes to an end when its recursion bound is at least [rank] plus
    nine times the number of tokens left. *)
Definition terminating (rank : nat) (Q : state -> Z -> state -> Prop)
  (f : nat -> Gen Z) : Prop :=
  forall fuel s, (rank + 9 * remaining s <= fuel)%nat -> wp False (f fuel) (Q s) s.

(** One of the three optional declaration groups of [block]: taken when
    its keyword is the current token, skipped otherwise. *)
Definition declaration_group (kw : token_type) (decl : Gen Z) : Gen Z :=
  (ty <- getCurrentTokenType ;;
   if token_type_eqb ty kw then decl else ret 0%Z)%gen.

(** The code of a block that starts with [nextCodeIndex = j]: the
    leading jump at [j]; the code of the declaration groups, [t_d], from
    [j+1] up to [p]; the frame reservation at [p], which is where the
    leading jump ends up pointing; the code of the statement, [t_s], from
    [p+1] up to [q]; the return at [q]. *)
Definition block_shape (MAX_CODE_LENGTH : nat) (heap : nat -> Symbol)
  (n : nat) (s s' : state)
  (vm0 : nat -> Instruction) : Prop :=
  exists sj sc sv sp si ss t_d t_s,
    let j := nextCodeIndex s in
    let p := nextCodeIndex sp in
    let q := nextCodeIndex ss in
    emit MAX_CODE_LENGTH JMP 0 0 0 s = Ret j sj /\
    declaration_group constsym (const_declaration heap n) sj = Ret 0%Z sc /\
    declaration_group varsym (var_declaration MAX_CODE_LENGTH heap n) sc = Ret 0%Z sv /\
    declaration_group procsym (proc_declaration MAX_CODE_LENGTH heap n) sv = Ret 0%Z sp /\
    bind (patch j) (fun _ => emit MAX_CODE_LENGTH INC 0 0 4) sp = Ret p si /\
    statement MAX_CODE_LENGTH n si = Ret 0%Z ss /\
    emit MAX_CODE_LENGTH RTN 0 0 0 ss = Ret q s' /\
    vmStores s' =
      StInstr q (mkInstruction RTN 0 0 0) :: t_s
        ++ StInstr p (mkInstruction INC 0 0 4) :: StM j (Z.of_nat p) :: t_d
        ++ StInstr j (placeholder JMP) :: vmStores s /\
    seg (S j) t_d p /\ seg (S p) t_s q /\
    vmCode vm0 (vmStores s') j = mkInstruction JMP 0 0 (Z.of_nat p) /\
    vmCode vm0 (vmStores s') p = mkInstruction INC 0 0 4 /\
    vmCode vm0 (vmStores s') q = mkInstruction RTN 0 0 0.

(** The token [k] places after the cursor. *)
Definition token_at (s : state) (k : nat) : Token :=
  getCurrentTokenFromIterator (tokenList s) (currentTokenInd s + k).

(** The token a factor that succeeds starts with. *)
Definition starts_factor (s : state) : Prop :=
  let ty := id (getCurrentTokenFromIterator (tokenList s) (currentTokenInd s)) in
  ty = identsym \/ ty = numbersym \/ ty = lparentsym.

(** The six relational operators, in the order [condition] tests them. *)
Definition relational (ty : token_type) : bool :=
  token_type_eqb ty eqsym || token_type_eqb ty neqsym
  || token_type_eqb ty leqsym || token_type_eqb ty geqsym
  || token_type_eqb ty lessym || token_type_eqb ty gtrsym.


(** An array for the examples. *)
Definition blank : nat -> Instruction := fun _ => placeholder RTN.

(** Memory for the examples: every block [malloc] returns holds [v] in
    its two integer members, and zeros everywhere in [zeroed]. *)
Definition filled (v : Z) : nat -> Symbol :=
  fun _ => mkSymbol EmptyString CONST 0 None v v.

Definition zeroed : nat -> Symbol := filled 0.

(** The state in which [statement] calls [expression] for the right-hand
    side of [x := x + x]. *)
Definition before_rhs (heap : nat -> Symbol) (tokens : list Token) : state :=
  mkState tokens 6 0 None [mkSymbol "x"%string VAR 0 None (value (heap 0%nat)) 1]
    [StInstr 2 (mkInstruction INC 0 0 4); StM 0 2;
     StInstr 1 (mkInstruction INC 0 0 1); StInstr 0 (placeholder JMP)]
    3 0.

(* ================================================================== *)
(** ** Vocabulary of the further properties *)

(** [nextCodeIndex] stays within the capacity [cap] of [vmCode]. *)
Definition capped (cap : nat) (s : state) (v : Z) (s' : state) : Prop :=
  (nextCodeIndex s <= cap)%nat -> (nextCodeIndex s' <= cap)%nat.

Definition within_capacity (cap : nat) (c : Gen Z) : Prop :=
  forall s, wp True c (capped cap s) s.

(** A value of [currentLevel], an [unsigned int]. *)
Definition level_ok (s : state) : Prop :=
  (0 <= currentLevel s < 2 ^ 32)%Z.

(** On success the level and the scope are those of the call. *)
Definition kept (s : state) (v : Z) (s' : state) : Prop :=
  v = 0%Z ->
  currentLevel s' = currentLevel s /\ currentScope s' = currentScope s.

Definition keeps (c : Gen Z) : Prop :=
  forall s, level_ok s -> wp True c (kept s) s.

(** [LIT] and [LOD], the two instructions of [factor]. *)
Definition is_load (i : Instruction) : Prop := op i = LIT \/ op i = LOD.

(** On success exactly one instruction was written, a load. *)
Definition one_load (s : state) (v : Z) (s' : state) : Prop :=
  v = 0%Z ->
  exists i, is_load i /\
    vmStores s' = StInstr (nextCodeIndex s) i :: vmStores s /\
    nextCodeIndex s' = S (nextCodeIndex s).

(** A loop that succeeds did not run: its test was false. *)
Definition loop_idle (test : bool) (s : state) (v : Z) (s' : state) : Prop :=
  v = 0%Z -> test = false /\ s' = s.

Definition multiplicative (o : token_type) : bool :=
  token_type_eqb o multsym || token_type_eqb o slashsym.

Definition additive (o : token_type) : bool :=
  token_type_eqb o plussym || token_type_eqb o minussym.

(** The arithmetic instructions. *)
Definition arithmetic (o : opcode) : bool :=
  match o with
  | NEG | ADD | SUB | MUL | DIV => true
  | _ => false
  end.

Definition plain_store (w : store) : Prop :=
  match w with
  | StInstr _ i => arithmetic (op i) = false
  | StM _ _ => True
  end.

(** On success no arithmetic instruction was written. *)
Definition clean (s : state) (v : Z) (s' : state) : Prop :=
  v = 0%Z -> exists t, vmStores s' = t ++ vmStores s /\ Forall plain_store t.

Definition cleanly (c : Gen Z) : Prop := forall s, wp True c (clean s) s.

(** The symbols of a group of [n] variables declared from [s] on: the
    names are the tokens 1, 3, 5, ... places after the cursor and the
    addresses the values [nextCodeIndex] takes, one apart; the member
    [value] is what the block of the symbol held when it was allocated. *)
Definition declared_vars (heap : nat -> Symbol) (s : state) (n : nat)
  : list Symbol :=
  map (fun k =>
         mkSymbol (lexeme (token_at s (1 + 2 * k))) VAR
           (currentLevel s) (currentScope s)
           (value (heap (List.length (symbolTable s) + k)%nat))
           (Z.of_nat (nextCodeIndex s + k)))
      (seq 0 n).

(** The increments written for them, newest first. *)
Definition var_increments (s : state) (n : nat) : list store :=
  rev (map (fun k => StInstr (nextCodeIndex s + k) (mkInstruction INC 0 0 1))
           (seq 0 n)).

(** The symbols of a group of [n] constants: names at the tokens 1, 5,
    9, ... places after the cursor, values two tokens further; the member
    [address] is what the block of the symbol held when it was
    allocated. *)
Definition declared_consts (heap : nat -> Symbol) (s : state) (n : nat)
  : list Symbol :=
  map (fun k =>
         mkSymbol (lexeme (token_at s (1 + 4 * k))) CONST
           (currentLevel s) (currentScope s)
           (atoi (lexeme (token_at s (3 + 4 * k))))
           (address (heap (List.length (symbolTable s) + k)%nat)))
      (seq 0 n).

(** What a block that succeeds has stored: the leading jump, the code of
    the declarations, the patch of the jump, the frame reservation, the
    code of the statement and the return. *)
Definition block_code (s : state) (v : Z) (s' : state) : Prop :=
  v = 0%Z ->
  exists p q t_d t_s,
    vmStores s' =
      StInstr q (mkInstruction RTN 0 0 0) :: t_s
        ++ StInstr p (mkInstruction INC 0 0 4)
        :: StM (nextCodeIndex s) (Z.of_nat p) :: t_d
        ++ StInstr (nextCodeIndex s) (mkInstruction JMP 0 0 0) :: vmStores s /\
    seg (S (nextCodeIndex s)) t_d p /\
    seg (S p) t_s q /\
    nextCodeIndex s' = S q.

(** The error codes the generator has. *)
Definition error_code (s : state) (v : Z) (s' : state) : Prop :=
  (0 <= v <= 19)%Z.

Definition coded (c : Gen Z) : Prop := forall s, wp True c (error_code s) s.

(** What a [while] statement that succeeds has stored: the code of the
    condition from the address the statement started at, the conditional
    jump at [j2], the code of the body, the jump back at [q], and the
    patch of the conditional jump to the address after the jump back. *)
Definition while_code (s : state) (v : Z) (s' : state) : Prop :=
  v = 0%Z ->
  exists j2 q t_c t_b,
    vmStores s' =
      StM j2 (Z.of_nat (S q))
        :: StInstr q (mkInstruction JMP 0 0 (Z.of_nat (nextCodeIndex s)))
        :: t_b ++ StInstr j2 (mkInstruction JPC 0 0 0) :: t_c ++ vmStores s /\
    seg (nextCodeIndex s) t_c j2 /\
    seg (S j2) t_b q /\
    nextCodeIndex s' = S q.

(** The token kinds [statement] has a branch for. *)
Definition starts_statement (ty : token_type) : bool :=
  token_type_eqb ty identsym || token_type_eqb ty callsym
  || token_type_eqb ty beginsym || token_type_eqb ty ifsym
  || token_type_eqb ty whilesym || token_type_eqb ty writesym
  || token_type_eqb ty readsym.

(** The state a call returned in, for the examples. *)
Definition state_after (o : outcome Z) (otherwise : state) : state :=
  match o with
  | Ret _ s => s
  | _ => otherwise
  end.

Definition printed (x : result) : list Instruction :=
  match x with
  | Returned _ out => out
  | _ => []
  end.

(** [x] a variable of the global scope at address 1, and the code index
    at 1, after the leading jump of the main block. *)
Definition in_main (heap : nat -> Symbol) (tokens : list Token) : state :=
  mkState tokens 0 0 None [mkSymbol "x"%string VAR 0 None (value (heap 0%nat)) 1]
    [StInstr 0 (mkInstruction JMP 0 0 0)] 1 0.

(** The level of the declarations made in the scope [sc]: 0 in the
    global scope, one more than the level of the procedure otherwise. *)
Definition level_of_scope (t : SymbolTable) (sc : option nat) : Z :=
  match sc with
  | None => 0%Z
  | Some p =>
      match nth_error t p with
      | Some x => wrap_unsigned (level x + 1)
      | None => 0%Z
      end
  end.

(** A scope pointer that names one of the first [n] symbols of the table. *)
Definition scope_in (n : nat) (sc : option nat) : Prop :=
  match sc with
  | None => True
  | Some p => (p < n)%nat
  end.

(** Every symbol was declared after the procedure that is its scope, at
    the level that goes with that scope. *)
Definition table_ok (t : SymbolTable) : Prop :=
  forall i x, nth_error t i = Some x ->
    scope_in i (scope x) /\ level x = level_of_scope t (scope x).

Definition context_ok (s : state) : Prop :=
  table_ok (symbolTable s) /\
  scope_in (List.length (symbolTable s)) (currentScope s) /\
  currentLevel s = level_of_scope (symbolTable s) (currentScope s).

(** A [CAL] or [STO] has level difference 0. *)
Definition local_store (w : store) : Prop :=
  match w with
  | StInstr _ i => op i = CAL \/ op i = STO -> l i = 0%Z
  | StM _ _ => True
  end.

(** What a non-terminal called in a good context does when it succeeds. *)
Definition local (s : state) (v : Z) (s' : state) : Prop :=
  v = 0%Z ->
  context_ok s' /\
  (exists added, symbolTable s' = symbolTable s ++ added) /\
  currentLevel s' = currentLevel s /\
  currentScope s' = currentScope s /\
  exists t, vmStores s' = t ++ vmStores s /\ Forall local_store t.

Definition locally (c : Gen Z) : Prop :=
  forall s, context_ok s -> wp True c (local s) s.

(** On success the table, the level and the scope are those of the call. *)
Definition untouched (s : state) (v : Z) (s' : state) : Prop :=
  v = 0%Z ->
  symbolTable s' = symbolTable s /\
  currentLevel s' = currentLevel s /\
  currentScope s' = currentScope s.

(** Further programs, as token lists. *)
Module Further_programs.
Import Programs.

(** [procedure p; ; .]: a procedure with an empty body. *)
Definition one_procedure : list Token :=
  [tk procsym "procedure"; tk identsym "p"; tk semicolonsym ";";
   tk semicolonsym ";"; tk periodsym "."].

(** [var x, y;] and [const a = 5, b = 7;] *)
Definition two_vars : list Token :=
  [tk varsym "var"; x_; tk commasym ","; tk identsym "y"; tk semicolonsym ";"].

Definition two_consts : list Token :=
  [tk constsym "const"; tk identsym "a"; tk eqsym "="; tk numbersym "5";
   tk commasym ","; tk identsym "b"; tk eqsym "="; tk numbersym "7";
   tk semicolonsym ";"].

(** [while odd x x do x := x], the condition written the way
    [condition] reads it. *)
Definition a_loop : list Token :=
  [tk whilesym "while"; tk oddsym "odd"; x_; x_; tk dosym "do";
   x_; becomes_; x_].

(** [var x; procedure p; ; begin call p; read x end.] *)
Definition call_and_read : list Token :=
  [tk varsym "var"; x_; tk semicolonsym ";";
   tk procsym "procedure"; tk identsym "p"; tk semicolonsym ";";
   tk semicolonsym ";";
   tk beginsym "begin"; tk callsym "call"; tk identsym "p";
   tk semicolonsym ";"; tk readsym "read"; x_; tk endsym "end";
   tk periodsym "."].

End Further_programs.

(* ================================================================== *)
(** ** Lemmas on stores *)

Lemma seg_le lo t hi : seg lo t hi -> (lo <= hi)%nat.
Proof. induction 1; lia. Qed.

Lemma seg_app lo mid hi t1 t2 :
  seg lo t1 mid -> seg mid t2 hi -> seg lo (t2 ++ t1) hi.
Proof.
  intros H1 H2. induction H2; simpl.
  - exact H1.
  - now constructor.
  - constructor; [assumption|]. apply seg_le in H1. lia.
Qed.

Lemma seg_addr lo t hi w :
  seg lo t hi -> In w t -> (lo <= store_addr w < hi)%nat.
Proof.
  induction 1; simpl; intros Hin.
  - contradiction.
  - destruct Hin as [<- | Hin]; simpl.
    + apply seg_le in H. lia.
    + apply IHseg in Hin. lia.
  - destruct Hin as [<- | Hin]; simpl; [lia | auto].
Qed.

Lemma seg_instr lo t hi a i :
  seg lo t hi -> In (StInstr a i) t -> (lo <= a < hi)%nat.
Proof. intros H Hin. exact (seg_addr _ _ _ _ H Hin). Qed.

Lemma seg_patches_out lo t hi a :
  seg lo t hi -> (a < lo \/ hi <= a)%nat -> patches a t = 0%nat.
Proof.
  induction 1; simpl; intros Ha.
  - reflexivity.
  - apply IHseg. lia.
  - destruct (Nat.eqb_spec a a0); [lia | apply IHseg; lia].
Qed.

Lemma seg_covered lo t hi a :
  seg lo t hi -> (lo <= a < hi)%nat -> exists i, In (StInstr a i) t.
Proof.
  induction 1; simpl; intros Ha.
  - lia.
  - destruct (Nat.eq_dec a hi) as [-> | Hne].
    + exists i. now left.
    + destruct IHseg as [j Hj]; [lia|]. exists j. now right.
  - destruct IHseg as [j Hj]; [lia|]. exists j. now right.
Qed.

Lemma patches_app a t1 t2 :
  patches a (t2 ++ t1) = (patches a t2 + patches a t1)%nat.
Proof.
  induction t2 as [| [b i | b v] t2 IH]; simpl; rewrite ?IH; lia.
Qed.

(** Reading [vmCode] at an address that a stretch of stores leaves alone. *)
Lemma vmCode_skip vm0 t ws a :
  (forall w, In w t -> store_addr w <> a) ->
  vmCode vm0 (t ++ ws) a = vmCode vm0 ws a.
Proof.
  induction t as [| [b i | b v] t IH]; simpl; intros Hout.
  - reflexivity.
  - destruct (Nat.eqb_spec a b) as [-> | _].
    + exfalso. apply (Hout (StInstr b i)); auto.
    + apply IH. auto.
  - destruct (Nat.eqb_spec a b) as [-> | _].
    + exfalso. apply (Hout (StM b v)); auto.
    + apply IH. auto.
Qed.

Lemma vmCode_seg_skip vm0 lo t hi ws a :
  seg lo t hi -> (a < lo \/ hi <= a)%nat ->
  vmCode vm0 (t ++ ws) a = vmCode vm0 ws a.
Proof.
  intros Hseg Ha. apply vmCode_skip. intros w Hin.
  pose proof (seg_addr _ _ _ _ Hseg Hin). lia.
Qed.

(** An address that was written as a whole no longer shows what the array
    held before. *)
Lemma vmCode_written vm1 vm2 ws a i :
  In (StInstr a i) ws -> vmCode vm1 ws a = vmCode vm2 ws a.
Proof.
  induction ws as [| [b j | b v] ws IH]; simpl; intros Hin.
  - contradiction.
  - destruct (Nat.eqb_spec a b) as [-> | Hne]; [reflexivity|].
    destruct Hin as [Heq | Hin]; [congruence | auto].
  - destruct Hin as [Heq | Hin]; [discriminate|].
    rewrite (IH Hin). reflexivity.
Qed.

Lemma balanced_nil : balanced [].
Proof. intros a; split; intros []. Qed.

(** Facts about one address and one stretch, as [lia] can use them. *)
Lemma seg_facts lo t hi a :
  seg lo t hi ->
  (lo <= hi)%nat /\
  ((a < lo \/ hi <= a)%nat -> patches a t = 0%nat) /\
  (forall i, In (StInstr a i) t -> (lo <= a < hi)%nat).
Proof.
  intros H. split; [exact (seg_le _ _ _ H)|]. split.
  - exact (seg_patches_out _ _ _ a H).
  - intros i. exact (seg_instr _ _ _ a i H).
Qed.

(** Bring the facts of every stretch in the context to bear on [a]. *)
Ltac seg_facts a :=
  repeat match goal with
  | H : seg ?lo ?t ?hi |- _ =>
      let F := fresh "F" in
      pose proof (seg_facts lo t hi a H) as F; revert H
  end; intros.

(** [balanced] of a list put together from stretches that are balanced:
    split on where the address lies, count the patches part by part. *)
Ltac bal_tac :=
  let a := fresh "a" in
  let Hin := fresh "Hin" in
  intros a; seg_facts a;
  repeat match goal with
  | H : balanced ?t |- _ => let B := fresh "B" in pose proof (H a) as B; revert H
  end; intros;
  repeat (progress (simpl; rewrite ?patches_app));
  split; intros Hin;
  repeat (simpl in Hin; rewrite ?in_app_iff in Hin);
  repeat match goal with
  | H : _ \/ _ |- _ => destruct H as [H | H]
  | H : StInstr _ _ = StInstr _ _ |- _ => inversion H; clear H; subst
  | H : StM _ _ = StInstr _ _ |- _ => discriminate H
  | H : False |- _ => destruct H
  end;
  repeat match goal with
  | |- context [Nat.eqb ?x ?y] => destruct (Nat.eqb_spec x y)
  end;
  try solve [ exfalso; unfold placeholder in *; congruence
            | intuition lia
            | repeat match goal with
                | F : _ /\ _ /\ (forall i, In _ _ -> _), H : In (StInstr _ ?i) ?t |- _ =>
                    lazymatch type of F with
                    | context [t] => pose proof (proj2 (proj2 F) i H); clear F
                    end
                end; intuition lia ].

Lemma balanced_app lo mid hi t1 t2 :
  seg lo t1 mid -> seg mid t2 hi -> balanced t1 -> balanced t2 ->
  balanced (t2 ++ t1).
Proof. intros S1 S2 B1 B2. bal_tac. Qed.

Lemma balanced_if_else lo j j2 hi t1 t2 t3 v1 v2 v3 :
  seg lo t1 j -> seg (S j) t2 j2 -> seg (S j2) t3 hi ->
  balanced t1 -> balanced t2 -> balanced t3 ->
  balanced (StM j v3 :: t3 ++ StM j2 v2 :: StInstr j2 (placeholder JMP)
              :: StM j v1 :: t2 ++ StInstr j (placeholder JPC) :: t1).
Proof. intros S1 S2 S3 B1 B2 B3. bal_tac. Qed.

(* ================================================================== *)
(** ** Reasoning about a run *)

Section Rules.
Variable MAX_CODE_LENGTH : nat.
Variable F : Prop.
Context {A B : Type}.

Lemma wp_ret (a : A) (Q : A -> state -> Prop) s : Q a s -> wp F (ret a) Q s.
Proof. exact (fun H => H). Qed.

Lemma wp_bind (c : Gen A) (k : A -> Gen B) (Q : B -> state -> Prop) s :
  wp F c (fun a s' => wp F (k a) Q s') s -> wp F (bind c k) Q s.
Proof. unfold wp, bind. destruct (c s); auto. Qed.

Lemma wp_mono (c : Gen A) (Q Q' : A -> state -> Prop) s :
  wp F c Q s -> (forall a s', Q a s' -> Q' a s') -> wp F c Q' s.
Proof. unfold wp. destruct (c s); auto. Qed.

Lemma wp_run (c : Gen A) (Q : A -> state -> Prop) s a s' :
  c s = Ret a s' -> Q a s' -> wp F c Q s.
Proof. unfold wp. intros ->. auto. Qed.

Lemma wp_deref (p : option A) (Q : A -> state -> Prop) s :
  (forall x, p = Some x -> Q x s) -> wp F (deref p) Q s.
Proof. destruct p; simpl; intros H; [apply H; reflexivity | exact I]. Qed.

Lemma wp_emit OP R L M (Q : nat -> state -> Prop) s :
  (nextCodeIndex s <> MAX_CODE_LENGTH ->
   Q (nextCodeIndex s)
     (mkState (tokenList s) (currentTokenInd s) (currentLevel s)
        (currentScope s) (symbolTable s)
        (StInstr (nextCodeIndex s) (mkInstruction OP R L M) :: vmStores s)
        (S (nextCodeIndex s)) (currentReg s))) ->
  wp F (emit MAX_CODE_LENGTH OP R L M) Q s.
Proof.
  unfold wp, emit. destruct (Nat.eqb_spec (nextCodeIndex s) MAX_CODE_LENGTH); auto.
Qed.

End Rules.

Lemma failed_false v : failed v = false -> v = 0%Z.
Proof. unfold failed. destruct (Z.eqb_spec v 0); [auto | discriminate]. Qed.

Lemma failed_true v : failed v = true -> v <> 0%Z.
Proof. unfold failed. destruct (Z.eqb_spec v 0); [discriminate | auto]. Qed.

(** Reduce the projections of the states built by the primitives. *)
Ltac proj_simpl :=
  cbn [tokenList currentTokenInd currentLevel currentScope symbolTable
       vmStores nextCodeIndex currentReg] in *.

(** One step through the body of a function. *)
Ltac wp_prim :=
  lazymatch goal with
  | |- wp _ (ret _) _ _ => apply wp_ret
  | |- wp _ (bind _ _) _ _ => apply wp_bind
  | |- wp _ (emit _ _ _ _ _) _ _ => apply wp_emit; intros ?
  | |- wp _ (deref _) _ _ => apply wp_deref; intros ? ?
  | |- wp _ getCurrentToken _ _ => eapply wp_run; [reflexivity|]
  | |- wp _ getCurrentTokenType _ _ => eapply wp_run; [reflexivity|]
  | |- wp _ nextToken _ _ => eapply wp_run; [reflexivity|]
  | |- wp _ get_currentLevel _ _ => eapply wp_run; [reflexivity|]
  | |- wp _ get_currentScope _ _ => eapply wp_run; [reflexivity|]
  | |- wp _ get_nextCodeIndex _ _ => eapply wp_run; [reflexivity|]
  | |- wp _ (set_currentLevel _) _ _ => eapply wp_run; [reflexivity|]
  | |- wp _ (set_currentScope _) _ _ => eapply wp_run; [reflexivity|]
  | |- wp _ (malloc_Symbol _) _ _ => eapply wp_run; [reflexivity|]
  | |- wp _ (add_symbol _) _ _ => eapply wp_run; [reflexivity|]
  | |- wp _ (find_symbol _) _ _ => eapply wp_run; [reflexivity|]
  | |- wp _ (patch _) _ _ => eapply wp_run; [reflexivity|]
  | |- wp _ (if failed ?v then _ else _) _ _ =>
      let E := fresh "E" in
      destruct (failed v) eqn:E;
      [ apply failed_true in E | apply failed_false in E; try subst v ]
  | |- wp _ (if ?b then _ else _) _ _ => destruct b eqn:?
  | |- wp _ (match ?p with Some _ => _ | None => _ end) _ _ => destruct p eqn:?
  end; cbv beta zeta; proj_simpl.

(** A call whose behaviour is known from a lemma or an induction
    hypothesis of the form [forall s, wp F (f ...) (tidy s) s]. *)
(** Bounds on [nextCodeIndex], from the stretches run so far. *)
Ltac side_tac :=
  proj_simpl;
  repeat match goal with
  | H : seg _ _ _ |- _ => pose proof (seg_le _ _ _ H); revert H
  end; intros; lia.

Ltac wp_call H :=
  eapply wp_mono; [ apply H; solve [side_tac] |];
  let v := fresh "v" in let s := fresh "s" in
  let t := fresh "t" in let T := fresh "T" in let V := fresh "V" in
  let G := fresh "G" in let B := fresh "B" in
  intros v s [t [[T [V G]] B]]; cbv beta; proj_simpl.

(** The stores between the state [base] and the present one, read off
    the normalised value of [vmStores]. *)
Ltac stores_since X base :=
  lazymatch X with
  | base => constr:(@nil store)
  | ?l ++ base => constr:(l)
  | ?a :: ?rest => let r := stores_since rest base in constr:(a :: r)
  | ?l ++ ?rest => let r := stores_since rest base in constr:(l ++ r)
  end.

(** Unfold the stores and the token list of the present state down to
    those of the state the function was called in. *)
Ltac rewrite_stores :=
  repeat match goal with
  | H : vmStores ?s = _ |- context [vmStores ?s] => rewrite H
  end.

Ltac rewrite_tokens :=
  repeat match goal with
  | H : tokenList ?s = _ |- context [tokenList ?s] => rewrite H
  end.

(** [seg] of a list of stores, following its structure. *)
Ltac seg_tac :=
  repeat match goal with
  | H : seg _ _ _ |- _ => pose proof (seg_le _ _ _ H); revert H
  end; intros;
  repeat first
    [ apply seg_nil
    | assumption
    | apply seg_emit
    | apply seg_patch; [| lia]
    | eapply seg_app; [| eassumption] ].

(** [balanced] at the end of a function. *)
Ltac bal_goal :=
  repeat match goal with
  | H : ?x = ?x -> balanced _ |- _ => specialize (H eq_refl)
  | H : ?P -> balanced _, Z : ?P |- _ => specialize (H Z)
  end;
  first [ assumption | exact balanced_nil | bal_tac ].

(** The postcondition [tidy] at a [return]. *)
Ltac finish :=
  lazymatch goal with
  | |- tidy ?s0 ?v ?s =>
      unfold tidy, reaches; proj_simpl; rewrite_stores;
      lazymatch goal with
      | |- exists t, (_ /\ ?X = _ /\ _) /\ _ =>
          let t := stores_since X (vmStores s0) in
          exists t; split; [ split; [| split] |]
      end;
      [ rewrite_tokens; reflexivity
      | repeat (progress (simpl; rewrite <- ?app_assoc)); reflexivity
      | seg_tac
      | let Z := fresh "Z" in
        intros Z; first [ discriminate Z | congruence | bal_goal ] ]
  end.

(** The whole body of a function. *)
Ltac go :=
  repeat first
    [ wp_prim
    | match goal with H : _ |- wp _ _ _ _ => wp_call H end
    | finish ].

Section Sound.
Variable MAX_CODE_LENGTH : nat.

Lemma const_declaration_sound heap fuel : sound (const_declaration heap fuel).
Proof.
  induction fuel as [| n IH]; intros s; [exact I|].
  simpl. go.
Qed.

Lemma var_declaration_sound heap fuel :
  sound (var_declaration MAX_CODE_LENGTH heap fuel).
Proof.
  induction fuel as [| n IH]; intros s; [exact I|].
  simpl. go.
Qed.

Lemma expression_level_sound fuel :
  sound (factor MAX_CODE_LENGTH fuel) /\
  (forall o, sound (term_loop MAX_CODE_LENGTH fuel o)) /\
  sound (term MAX_CODE_LENGTH fuel) /\
  (forall o, sound (expression_loop MAX_CODE_LENGTH fuel o)) /\
  sound (expression MAX_CODE_LENGTH fuel).
Proof.
  induction fuel as [| n (IHf & IHtl & IHt & IHel & IHe)].
  - repeat split; intros; exact I.
  - unfold sound in *. repeat split; intros; simpl.
    + go.
    + go.
    + go.
    + go.
    + go.
Qed.


Lemma condition_sound fuel : sound (condition MAX_CODE_LENGTH fuel).
Proof.
  destruct fuel as [| n]; intros s; [exact I|].
  destruct (expression_level_sound n) as (_ & _ & _ & _ & He).
  unfold sound in He. simpl. go.
Qed.

Lemma statement_sound fuel :
  sound_in_block (statement_list MAX_CODE_LENGTH fuel) /\
  sound_in_block (statement MAX_CODE_LENGTH fuel).
Proof.
  induction fuel as [| n (IHl & IHs)].
  - split; intros s _; exact I.
  - pose proof (condition_sound n) as Hc.
    destruct (expression_level_sound n) as (_ & _ & _ & _ & He).
    unfold sound, sound_in_block in *.
    split; intros s Hs; simpl.
    + go.
    + go.
Qed.

Lemma block_sound heap fuel :
  sound (proc_declaration MAX_CODE_LENGTH heap fuel) /\
  sound (block MAX_CODE_LENGTH heap fuel).
Proof.
  induction fuel as [| n (IHp & IHb)].
  - split; intros s; exact I.
  - pose proof (const_declaration_sound heap n) as Hc.
    pose proof (var_declaration_sound heap n) as Hv.
    destruct (statement_sound n) as (_ & Hs).
    unfold sound, sound_in_block in *.
    split; intros s; simpl.
    + go.
    + go.
Qed.

Lemma program_sound heap fuel : sound (program MAX_CODE_LENGTH heap fuel).
Proof.
  destruct (block_sound heap fuel) as (_ & Hb).
  unfold sound in *. intros s. unfold program. go.
Qed.

End Sound.

(* ================================================================== *)
(** ** Termination *)

Lemma real_token l i k :
  token_type_eqb (id (getCurrentTokenFromIterator l i)) k = true ->
  k <> nulsym -> (i < List.length l)%nat.
Proof.
  unfold getCurrentTokenFromIterator. intros H Hk.
  destruct (Nat.lt_ge_cases i (List.length l)) as [Hlt | Hge]; [exact Hlt|].
  rewrite nth_overflow in H by exact Hge.
  destruct k; try (exfalso; apply Hk; reflexivity); vm_compute in H;
    discriminate H.
Qed.

Lemma real_token' l i k :
  differs (id (getCurrentTokenFromIterator l i)) k = false ->
  k <> nulsym -> (i < List.length l)%nat.
Proof.
  unfold differs. intros H. apply real_token.
  destruct (token_type_eqb _ k); [reflexivity | discriminate].
Qed.

(** A token that passed a test against a kind other than [nulsym] lies
    inside the token list. *)
Ltac token_facts :=
  repeat match goal with
  | H : token_type_eqb (id (getCurrentTokenFromIterator ?l ?i)) ?k = true |- _ =>
      let R := fresh "R" in
      assert (R : (i < List.length l)%nat)
        by (apply (real_token l i k H); discriminate);
      revert H
  | H : differs (id (getCurrentTokenFromIterator ?l ?i)) ?k = false |- _ =>
      let R := fresh "R" in
      assert (R : (i < List.length l)%nat)
        by (apply (real_token' l i k H); discriminate);
      revert H
  end; intros.

Ltac rewrite_tokens_all :=
  repeat match goal with
  | H : tokenList ?s = _ |- _ => rewrite H in *; revert H
  end; intros.

(** Arithmetic on the cursor and the recursion bound. *)
Ltac fuel_tac :=
  unfold remaining in *; proj_simpl; token_facts;
  repeat match goal with
  | H : ?x = ?x -> _ |- _ => specialize (H eq_refl)
  end;
  rewrite_tokens_all; lia.

(** As [wp_call], [finish] and [go], for termination. *)
Ltac t_call H :=
  eapply wp_mono; [ apply H; solve [fuel_tac] |];
  let v := fresh "v" in let s := fresh "s" in
  first [ intros v s (? & ? & ?) | intros v s (? & ?) ];
  cbv beta; proj_simpl.

Ltac t_finish :=
  lazymatch goal with
  | |- advances _ _ _ =>
      unfold advances; proj_simpl; split; [ rewrite_tokens; reflexivity | fuel_tac ]
  | |- consumes _ _ _ =>
      unfold consumes; proj_simpl; split; [ rewrite_tokens; reflexivity |];
      split; [ fuel_tac | intros ?; first [ discriminate | congruence | fuel_tac ] ]
  end.

Ltac t_go :=
  repeat first
    [ wp_prim
    | match goal with H : _ |- wp _ _ _ _ => t_call H end
    | t_finish ].

Section Termination.
Variable MAX_CODE_LENGTH : nat.

Lemma const_declaration_terminating heap :
  terminating 1 advances (const_declaration heap).
Proof.
  intros fuel. induction fuel as [| n IH]; intros s Hf; [lia|].
  simpl. t_go.
Qed.

Lemma var_declaration_terminating heap :
  terminating 1 advances (var_declaration MAX_CODE_LENGTH heap).
Proof.
  intros fuel. induction fuel as [| n IH]; intros s Hf; [lia|].
  simpl. t_go.
Qed.

Lemma expression_level_terminating fuel :
  (forall s, (1 + 9 * remaining s <= fuel)%nat ->
     wp False (factor MAX_CODE_LENGTH fuel) (consumes s) s) /\
  (forall o s, (2 + 9 * remaining s <= fuel)%nat ->
     wp False (term_loop MAX_CODE_LENGTH fuel o) (advances s) s) /\
  (forall s, (3 + 9 * remaining s <= fuel)%nat ->
     wp False (term MAX_CODE_LENGTH fuel) (consumes s) s) /\
  (forall o s, (4 + 9 * remaining s <= fuel)%nat ->
     wp False (expression_loop MAX_CODE_LENGTH fuel o) (advances s) s) /\
  (forall s, (5 + 9 * remaining s <= fuel)%nat ->
     wp False (expression MAX_CODE_LENGTH fuel) (advances s) s).
Proof.
  induction fuel as [| n (IHf & IHtl & IHt & IHel & IHe)].
  - repeat split; intros; lia.
  - repeat split; intros; simpl.
    + t_go.
    + t_go.
    + t_go.
    + t_go.
    + t_go.
Qed.


Lemma condition_terminating :
  terminating 6 advances (condition MAX_CODE_LENGTH).
Proof.
  intros [| n] s Hf; [lia|].
  destruct (expression_level_terminating n) as (_ & _ & _ & _ & He).
  simpl. t_go.
Qed.

Lemma statement_terminating fuel :
  (forall s, (7 + 9 * remaining s <= fuel)%nat ->
     wp False (statement_list MAX_CODE_LENGTH fuel) (advances s) s) /\
  (forall s, (7 + 9 * remaining s <= fuel)%nat ->
     wp False (statement MAX_CODE_LENGTH fuel) (advances s) s).
Proof.
  induction fuel as [| n (IHl & IHs)].
  - split; intros; lia.
  - pose proof (condition_terminating n) as Hc.
    destruct (expression_level_terminating n) as (_ & _ & _ & _ & He).
    unfold terminating in *.
    split; intros s Hf; simpl.
    + t_go.
    + t_go.
Qed.

Lemma block_terminating heap fuel :
  (forall s, (8 + 9 * remaining s <= fuel)%nat ->
     wp False (proc_declaration MAX_CODE_LENGTH heap fuel) (advances s) s) /\
  (forall s, (9 + 9 * remaining s <= fuel)%nat ->
     wp False (block MAX_CODE_LENGTH heap fuel) (advances s) s).
Proof.
  induction fuel as [| n (IHp & IHb)].
  - split; intros; lia.
  - pose proof (const_declaration_terminating heap n) as Hc.
    pose proof (var_declaration_terminating heap n) as Hv.
    destruct (statement_terminating n) as (_ & Hs).
    unfold terminating in *.
    split; intros s Hf; simpl.
    + t_go.
    + t_go.
Qed.

Lemma program_terminating heap tokens :
  wp False (program MAX_CODE_LENGTH heap (fuel_of tokens))
    (fun _ _ => True) (entry_state tokens).
Proof.
  destruct (block_terminating heap (fuel_of tokens)) as (_ & Hb).
  unfold program.
  apply wp_bind. eapply wp_mono.
  - apply Hb. unfold remaining, fuel_of, entry_state. simpl. lia.
  - intros v s _. cbv beta. repeat wp_prim; exact I.
Qed.

End Termination.

Lemma bind_inv {A B} (c : Gen A) (k : A -> Gen B) s v s' :
  bind c k s = Ret v s' -> exists a s1, c s = Ret a s1 /\ k a s1 = Ret v s'.
Proof.
  unfold bind. destruct (c s) as [a s1 | | |]; try discriminate.
  intros H. exists a, s1. auto.
Qed.

Lemma sound_inv (c : Gen Z) s v s' :
  (forall s, wp True c (tidy s) s) -> c s = Ret v s' -> tidy s v s'.
Proof. intros H E. specialize (H s). unfold wp in H. now rewrite E in H. Qed.

Lemma continue_inv (e : Z) (K : Gen Z) s s' :
  (if failed e then ret e else K) s = Ret 0%Z s' -> e = 0%Z /\ K s = Ret 0%Z s'.
Proof.
  destruct (failed e) eqn:E.
  - unfold ret. intros H. inversion H; subst. discriminate E.
  - apply failed_false in E. auto.
Qed.

Lemma getCurrentTokenType_inv s ty s1 :
  getCurrentTokenType s = Ret ty s1 ->
  s1 = s /\ ty = id (getCurrentTokenFromIterator (tokenList s) (currentTokenInd s)).
Proof. intros H. inversion H. auto. Qed.

Lemma sound_in_block_inv (c : Gen Z) s v s' :
  sound_in_block c -> (1 <= nextCodeIndex s)%nat -> c s = Ret v s' -> tidy s v s'.
Proof. intros H L E. specialize (H s L). unfold wp in H. now rewrite E in H. Qed.

Section Layout.
Variable MAX_CODE_LENGTH : nat.

Lemma declaration_group_sound kw decl :
  sound decl -> sound (declaration_group kw decl).
Proof. intros H s. unfold declaration_group, sound in *. go. Qed.

(** C7.  A block that compiles without error emits the leading jump,
    patched to the position reached after the constant, variable and
    procedure declaration groups (each taken at most once, in this order),
    then the reservation of 4 cells at that position, then the code of one
    statement, then the return. *)
Theorem block_layout heap n s s' vm0 :
  block MAX_CODE_LENGTH heap (S n) s = Ret 0%Z s' ->
  block_shape MAX_CODE_LENGTH heap n s s' vm0.
Proof.
  intros H. unfold block_shape. simpl in H.
  apply bind_inv in H. destruct H as (j & sj & Ej & H).
  (* the three groups *)
  apply bind_inv in H. destruct H as (ty1 & s1 & E1 & H).
  apply getCurrentTokenType_inv in E1. destruct E1 as [-> ->].
  apply bind_inv in H. destruct H as (e1 & sc & Ec & H).
  apply continue_inv in H. destruct H as [-> H]. simpl in H.
  apply bind_inv in H. destruct H as (ty2 & s2 & E2 & H).
  apply getCurrentTokenType_inv in E2. destruct E2 as [-> ->].
  apply bind_inv in H. destruct H as (e2 & sv & Ev & H).
  apply continue_inv in H. destruct H as [-> H]. simpl in H.
  apply bind_inv in H. destruct H as (ty3 & s3 & E3 & H).
  apply getCurrentTokenType_inv in E3. destruct E3 as [-> ->].
  apply bind_inv in H. destruct H as (e3 & sp & Ep & H).
  apply continue_inv in H. destruct H as [-> H].
  rewrite andb_true_r in Ec, Ev, Ep.
  (* the patch, the frame reservation, the statement, the return *)
  apply bind_inv in H. destruct H as ([] & sp' & Epatch & H).
  apply bind_inv in H. destruct H as (p & si & Ei & H).
  apply bind_inv in H. destruct H as (e4 & ss & Es & H).
  apply continue_inv in H. destruct H as [-> H].
  apply bind_inv in H. destruct H as (q & sq & Eq & H).
  inversion H; subst sq; clear H.
  (* what each part stored *)
  assert (Gc : tidy sj 0 sc).
  { apply (sound_inv (declaration_group constsym (const_declaration heap n)));
      [ apply declaration_group_sound, const_declaration_sound | exact Ec ]. }
  assert (Gv : tidy sc 0 sv).
  { apply (sound_inv (declaration_group varsym (var_declaration MAX_CODE_LENGTH heap n)));
      [ apply declaration_group_sound, var_declaration_sound | exact Ev ]. }
  assert (Gp : tidy sv 0 sp).
  { apply (sound_inv (declaration_group procsym (proc_declaration MAX_CODE_LENGTH heap n)));
      [ apply declaration_group_sound, block_sound | exact Ep ]. }
  destruct Gc as (tc & (_ & Vc & Sc) & _).
  destruct Gv as (tv & (_ & Vv & Sv) & _).
  destruct Gp as (tp & (_ & Vp & Sp) & _).
  unfold emit in Ej.
  destruct (Nat.eqb (nextCodeIndex s) MAX_CODE_LENGTH) eqn:Cj; [discriminate|].
  inversion Ej; subst j sj; clear Ej. proj_simpl.
  inversion Epatch; subst sp'; clear Epatch.
  unfold emit in Ei. proj_simpl.
  destruct (Nat.eqb (nextCodeIndex sp) MAX_CODE_LENGTH) eqn:Cp; [discriminate|].
  inversion Ei; subst p si; clear Ei.
  pose proof Es as Gs.
  apply sound_in_block_inv in Gs;
    [| apply (statement_sound MAX_CODE_LENGTH n) | simpl; lia ].
  destruct Gs as (ts & (_ & Vs & Ss) & _). proj_simpl.
  unfold emit in Eq.
  destruct (Nat.eqb (nextCodeIndex ss) MAX_CODE_LENGTH) eqn:Cq; [discriminate|].
  inversion Eq; subst q s'; clear Eq. proj_simpl.
  pose proof (seg_app _ _ _ _ _ (seg_app _ _ _ _ _ Sc Sv) Sp) as Sd.
  pose proof (seg_le _ _ _ Sd) as Ld.
  pose proof (seg_le _ _ _ Ss) as Ls.
  assert (Vd : vmStores sp =
    (tp ++ tv ++ tc) ++ StInstr (nextCodeIndex s) (placeholder JMP) :: vmStores s).
  { rewrite Vp, Vv, Vc. now rewrite <- !app_assoc. }
  eexists _, sc, sv, sp, _, ss, (tp ++ tv ++ tc), ts. cbv zeta.
  split. { unfold emit. rewrite Cj. reflexivity. }
  split. { exact Ec. }
  split. { exact Ev. }
  split. { exact Ep. }
  split. { unfold bind, patch, emit. proj_simpl. rewrite Cp. reflexivity. }
  split. { exact Es. }
  split. { unfold emit. rewrite Cq. reflexivity. }
  proj_simpl. rewrite Vs, Vd.
  split. { reflexivity. }
  split. { exact Sd. }
  split. { exact Ss. }
  split; [| split].
  - (* the leading jump and its target *)
    simpl. rewrite (proj2 (Nat.eqb_neq _ _)) by lia.
    rewrite (vmCode_seg_skip _ _ _ _ _ _ Ss) by lia.
    simpl. rewrite (proj2 (Nat.eqb_neq _ _)) by lia.
    rewrite Nat.eqb_refl.
    rewrite (vmCode_seg_skip _ _ _ _ _ _ Sd) by lia.
    simpl. rewrite Nat.eqb_refl. reflexivity.
  - (* the frame reservation *)
    simpl. rewrite (proj2 (Nat.eqb_neq _ _)) by lia.
    rewrite (vmCode_seg_skip _ _ _ _ _ _ Ss) by lia.
    simpl. rewrite Nat.eqb_refl. reflexivity.
  - (* the return *)
    simpl. rewrite Nat.eqb_refl. reflexivity.
Qed.

End Layout.

Module Layout_example.
Import Programs.

(** The block of the program [.]: no declarations and the empty
    statement. *)
Lemma block_layout_witness :
  exists s',
    block 3 zeroed (S 1) (entry_state [tk periodsym "."]) = Ret 0%Z s' /\
    block_shape 3 zeroed 1 (entry_state [tk periodsym "."]) s' (fun _ => placeholder RTN).
Proof.
  eexists. split; [vm_compute; reflexivity|].
  apply block_layout. vm_compute. reflexivity.
Defined.
End Layout_example.

(* ================================================================== *)
(** ** The capacity of the code array *)

(** C8.  A call of [emit] made when [nextCodeIndex] has reached
    [MAX_CODE_LENGTH] ends the process: no address comes back, the code
    after the call is not run (so no error code reaches a caller), and the
    globals, [vmCode] among them, are as they were. *)
Theorem emit_at_capacity MAX_CODE_LENGTH OP R L M (s : state) :
  nextCodeIndex s = MAX_CODE_LENGTH ->
  emit MAX_CODE_LENGTH OP R L M s = Exit s /\
  forall (B : Type) (k : nat -> Gen B),
    bind (emit MAX_CODE_LENGTH OP R L M) k s = Exit s.
Proof.
  intros H. assert (E : emit MAX_CODE_LENGTH OP R L M s = Exit s).
  { unfold emit. rewrite H, Nat.eqb_refl. reflexivity. }
  split; [exact E|]. intros B k. unfold bind. rewrite E. reflexivity.
Qed.

Lemma emit_at_capacity_witness :
  emit 2 LIT 0 0 7 (mkState [] 0 0 None [] [] 2 0)
    = Exit (mkState [] 0 0 None [] [] 2 0).
Proof.
  exact (proj1 (emit_at_capacity 2 LIT 0 0 7 (mkState [] 0 0 None [] [] 2 0) eq_refl)).
Defined.

(* ================================================================== *)
(** ** Placeholder jumps *)

Lemma compiled_seg D lo t hi : compiled D lo t hi -> seg lo t hi.
Proof.
  induction 1; seg_tac.
Qed.










(** The counts, construct by construct. *)
Lemma block_jump_once Dd Ds j td p ts q v i1 i2 :
  compiled Dd (S j) td p -> compiled Ds (S p) ts q ->
  patches j (StInstr q i1 :: ts ++ StInstr p i2 :: StM j v
               :: td ++ [StInstr j (placeholder JMP)]) = 1%nat.
Proof.
  intros Hd Hs. apply compiled_seg in Hd, Hs.
  pose proof (seg_le _ _ _ Hd).
  repeat (progress (simpl; rewrite ?patches_app)). rewrite Nat.eqb_refl.
  rewrite (seg_patches_out _ _ _ j Hs) by lia.
  rewrite (seg_patches_out _ _ _ j Hd) by lia. reflexivity.
Qed.

Lemma while_jump_once Dc D lo tc j t q v i :
  compiled Dc lo tc j -> compiled D (S j) t q ->
  patches j (StM j v :: StInstr q i :: t
               ++ StInstr j (placeholder JPC) :: tc) = 1%nat.
Proof.
  intros Hc H. apply compiled_seg in Hc, H.
  repeat (progress (simpl; rewrite ?patches_app)). rewrite Nat.eqb_refl.
  rewrite (seg_patches_out _ _ _ j H) by lia.
  rewrite (seg_patches_out _ _ _ j Hc) by lia. reflexivity.
Qed.

Lemma if_jump_once Dc D lo tc j t hi v :
  compiled Dc lo tc j -> compiled D (S j) t hi ->
  patches j (StM j v :: t ++ StInstr j (placeholder JPC) :: tc) = 1%nat.
Proof.
  intros Hc H. apply compiled_seg in Hc, H.
  repeat (progress (simpl; rewrite ?patches_app)). rewrite Nat.eqb_refl.
  rewrite (seg_patches_out _ _ _ j H) by lia.
  rewrite (seg_patches_out _ _ _ j Hc) by lia. reflexivity.
Qed.

Lemma if_else_jumps Dc D1 D2 lo tc j t1 j2 t2 hi v1 v2 v3 :
  compiled Dc lo tc j -> compiled D1 (S j) t1 j2 ->
  compiled D2 (S j2) t2 hi ->
  let t := StM j v3 :: t2 ++ StM j2 v2 :: StInstr j2 (placeholder JMP)
             :: StM j v1 :: t1 ++ StInstr j (placeholder JPC) :: tc in
  patches j t = 2%nat /\ patches j2 t = 1%nat.
Proof.
  intros Hc H1 H2 t. subst t. apply compiled_seg in Hc, H1, H2.
  pose proof (seg_le _ _ _ H1). pose proof (seg_le _ _ _ Hc).
  repeat (progress (simpl; rewrite ?patches_app)). rewrite !Nat.eqb_refl.
  destruct (Nat.eqb_spec j j2); [lia|]. destruct (Nat.eqb_spec j2 j); [lia|].
  rewrite (seg_patches_out _ _ _ j H2) by lia.
  rewrite (seg_patches_out _ _ _ j H1) by lia.
  rewrite (seg_patches_out _ _ _ j Hc) by lia.
  rewrite (seg_patches_out _ _ _ j2 H2) by lia.
  rewrite (seg_patches_out _ _ _ j2 H1) by lia.
  rewrite (seg_patches_out _ _ _ j2 Hc) by lia. split; reflexivity.
Qed.






Section Shapes.
Variable MAX_CODE_LENGTH : nat.








End Shapes.

Section Patching.
Variable MAX_CODE_LENGTH : nat.

Lemma accepted_inv heap tokens vm0 out :
  codeGenerator MAX_CODE_LENGTH heap tokens vm0 = Returned 0 out ->
  exists s,
    program MAX_CODE_LENGTH heap (fuel_of tokens) (entry_state tokens) = Ret 0%Z s /\
    out = printEmittedCodes vm0 s /\
    final_stores MAX_CODE_LENGTH heap tokens = vmStores s.
Proof.
  unfold codeGenerator, final_stores.
  destruct (program MAX_CODE_LENGTH heap (fuel_of tokens) (entry_state tokens))
    as [v s | | |]; try discriminate.
  destruct (failed v) eqn:E; intros H; inversion H; subst.
  - discriminate E.
  - exists s. auto.
Qed.

Lemma program_stores heap tokens v s :
  program MAX_CODE_LENGTH heap (fuel_of tokens) (entry_state tokens) = Ret v s ->
  seg 0 (vmStores s) (nextCodeIndex s) /\ (v = 0%Z -> balanced (vmStores s)).
Proof.
  intros E.
  destruct (sound_inv _ _ _ _ (program_sound MAX_CODE_LENGTH heap (fuel_of tokens)) E)
    as (t & (_ & V & G) & B).
  simpl in V, G. rewrite app_nil_r in V. subst t. auto.
Qed.


End Patching.

Module Patching_examples.
Import Programs.



End Patching_examples.

(* ================================================================== *)
(** ** Compiling the same tokens again *)

Section Repeat.
Variable MAX_CODE_LENGTH : nat.

Lemma printed_any_array heap tokens v s vm1 vm2 :
  program MAX_CODE_LENGTH heap (fuel_of tokens) (entry_state tokens) = Ret v s ->
  printEmittedCodes vm1 s = printEmittedCodes vm2 s.
Proof.
  intros E. destruct (program_stores _ _ _ _ _ E) as [G _].
  unfold printEmittedCodes. apply map_ext_in. intros a Ha.
  apply in_seq in Ha.
  destruct (seg_covered _ _ _ a G) as [i Hi]; [lia|].
  exact (vmCode_written vm1 vm2 _ _ _ Hi).
Qed.

(** What [codeGenerator] returns and prints does not depend on what
    [vmCode] held when it was called. *)
Lemma codeGenerator_any_array heap tokens vm1 vm2 :
  codeGenerator MAX_CODE_LENGTH heap tokens vm1 = codeGenerator MAX_CODE_LENGTH heap tokens vm2.
Proof.
  unfold codeGenerator.
  destruct (program MAX_CODE_LENGTH heap (fuel_of tokens) (entry_state tokens))
    as [v s | | |] eqn:E; try reflexivity.
  destruct (failed v); [reflexivity|].
  f_equal. exact (printed_any_array _ _ _ _ vm1 vm2 E).
Qed.

Lemma codeGenerator_total heap tokens vm0 :
  codeGenerator MAX_CODE_LENGTH heap tokens vm0 <> Unfinished.
Proof.
  unfold codeGenerator.
  pose proof (program_terminating MAX_CODE_LENGTH heap tokens) as T.
  unfold wp in T.
  destruct (program MAX_CODE_LENGTH heap (fuel_of tokens) (entry_state tokens))
    as [v s | | |]; try discriminate.
  - destruct (failed v); discriminate.
  - contradiction.
Qed.

(** [codeGenerator] sets the cursor, the level, the scope, the code
    index, the register and the symbol table anew when it is entered;
    [vmCode] keeps what the call before left in it.  A call on given
    tokens comes to an end, and a second call on the same tokens, made
    with the array the first one left, returns the same error code and
    prints the same lines, provided [malloc] hands out blocks with the
    same contents as in the first call. *)
Lemma codeGenerator_repeatable heap tokens vm0 :
  codeGenerator MAX_CODE_LENGTH heap tokens vm0 <> Unfinished /\
  codeGenerator MAX_CODE_LENGTH heap tokens (vmCode_after MAX_CODE_LENGTH heap tokens vm0)
    = codeGenerator MAX_CODE_LENGTH heap tokens vm0.
Proof.
  split; [apply codeGenerator_total | apply codeGenerator_any_array].
Qed.

End Repeat.

(* ================================================================== *)
(** ** What [term] and [expression] accept *)

Section Chains.
Variable MAX_CODE_LENGTH : nat.

Lemma wp_any {A} (c : Gen A) s : wp True c (fun _ _ => True) s.
Proof. unfold wp. destruct (c s); exact I. Qed.

Lemma token_type_eqb_eq a b : token_type_eqb a b = true -> a = b.
Proof. unfold token_type_eqb. destruct (token_type_dec a b); [auto | discriminate]. Qed.

Lemma factor_start n s :
  wp True (factor MAX_CODE_LENGTH (S n))
    (fun v _ => v = 0%Z -> starts_factor s) s.
Proof.
  simpl.
  repeat first
    [ wp_prim
    | eapply wp_mono; [ apply (wp_any (expression MAX_CODE_LENGTH n)) |];
      intros ? ? _; cbv beta ];
    intros Z; try discriminate Z; try congruence;
    unfold starts_factor;
    repeat match goal with
    | H : token_type_eqb _ _ = true |- _ => apply token_type_eqb_eq in H
    end; tauto.
Qed.

Lemma not_operator_of_start s (a b : token_type) :
  starts_factor s -> a <> identsym -> a <> numbersym -> a <> lparentsym ->
  b <> identsym -> b <> numbersym -> b <> lparentsym ->
  token_type_eqb
    (id (getCurrentTokenFromIterator (tokenList s) (currentTokenInd s))) a
  || token_type_eqb
    (id (getCurrentTokenFromIterator (tokenList s) (currentTokenInd s))) b
  = false.
Proof.
  unfold starts_factor, token_type_eqb. intros H.
  destruct (token_type_dec _ a), (token_type_dec _ b); intros;
    try reflexivity; exfalso; intuition congruence.
Qed.

(** X1.  [term] never gets into its loop: the operator it tests is the first
    token of the factor it has just compiled.  A term is compiled as its
    first factor and nothing else. *)
Lemma term_is_factor n s :
  term MAX_CODE_LENGTH (S (S n)) s = factor MAX_CODE_LENGTH (S n) s.
Proof.
  pose proof (factor_start n s) as W. unfold wp in W.
  change (term MAX_CODE_LENGTH (S (S n)) s) with
    (match factor MAX_CODE_LENGTH (S n) s with
     | Ret err s1 =>
         (if failed err then ret err
          else term_loop MAX_CODE_LENGTH (S n)
                 (id (getCurrentTokenFromIterator (tokenList s) (currentTokenInd s))))
           s1
     | Exit s1 => Exit s1
     | NullDeref => NullDeref
     | OutOfFuel => OutOfFuel
     end).
  destruct (factor MAX_CODE_LENGTH (S n) s) as [v s1 | | |]; try reflexivity.
  destruct (failed v) eqn:E; [reflexivity|].
  apply failed_false in E. subst v. simpl.
  rewrite (not_operator_of_start s multsym slashsym (W eq_refl)) by discriminate.
  reflexivity.
Qed.

(** X2.  Without a leading sign, [expression] compiles one term and stops. *)
Lemma expression_unsigned_is_term n s :
  let ty := id (getCurrentTokenFromIterator (tokenList s) (currentTokenInd s)) in
  ty <> plussym -> ty <> minussym ->
  expression MAX_CODE_LENGTH (S (S n)) s = term MAX_CODE_LENGTH (S n) s.
Proof.
  intros ty Hp Hm.
  assert (E : token_type_eqb ty plussym || token_type_eqb ty minussym = false).
  { unfold token_type_eqb.
    destruct (token_type_dec ty plussym), (token_type_dec ty minussym);
      try reflexivity; contradiction. }
  change (expression MAX_CODE_LENGTH (S (S n)) s) with
    ((if token_type_eqb ty plussym || token_type_eqb ty minussym
      then
        (nextToken ;;
         err <- term MAX_CODE_LENGTH (S n) ;;
         if failed err then ret err else
         (if token_type_eqb ty minussym
          then _ <- emit MAX_CODE_LENGTH NEG 0 0 0 ;; ret tt else ret tt) ;;
         err <- term MAX_CODE_LENGTH (S n) ;;
         if failed err then ret err else
         expression_loop MAX_CODE_LENGTH (S n) ty)%gen
      else
        (err <- term MAX_CODE_LENGTH (S n) ;;
         if failed err then ret err else
         expression_loop MAX_CODE_LENGTH (S n) ty)%gen) s).
  rewrite E. unfold bind.
  destruct (term MAX_CODE_LENGTH (S n) s) as [v s1 | | |]; try reflexivity.
  destruct (failed v) eqn:F; [reflexivity|].
  apply failed_false in F. subst v. simpl. rewrite E. reflexivity.
Qed.

(** With [op] a sign, the loop of [expression] has no way out but an
    error: nothing in it changes [op]. *)
Lemma expression_loop_never_succeeds fuel o s s' :
  token_type_eqb o plussym || token_type_eqb o minussym = true ->
  expression_loop MAX_CODE_LENGTH fuel o s <> Ret 0%Z s'.
Proof.
  intros Ho. revert s. induction fuel as [| n IH]; intros s; [discriminate|].
  simpl. rewrite Ho. unfold bind. simpl.
  destruct (term MAX_CODE_LENGTH n _) as [v s1 | | |]; try discriminate.
  destruct (failed v) eqn:F.
  - apply failed_true in F. unfold ret. congruence.
  - destruct (token_type_eqb o plussym);
      (destruct (emit MAX_CODE_LENGTH _ 0 0 0 s1) as [a s2 | | |]; try discriminate;
       apply IH).
Qed.

(** X3.  An expression with a leading sign is never accepted. *)
Lemma expression_signed_fails fuel s s' :
  let ty := id (getCurrentTokenFromIterator (tokenList s) (currentTokenInd s)) in
  token_type_eqb ty plussym || token_type_eqb ty minussym = true ->
  expression MAX_CODE_LENGTH fuel s <> Ret 0%Z s'.
Proof.
  intros ty Ho. destruct fuel as [| n]; [discriminate|].
  simpl. unfold bind. simpl. fold ty. rewrite Ho.
  destruct (term MAX_CODE_LENGTH n _) as [v s1 | | |]; try discriminate.
  destruct (failed v) eqn:F.
  - apply failed_true in F. unfold ret. congruence.
  - assert (K : forall s2,
        (err <- term MAX_CODE_LENGTH n ;;
         if failed err then ret err
         else expression_loop MAX_CODE_LENGTH n ty)%gen s2 <> Ret 0%Z s').
    { intros s2. unfold bind.
      destruct (term MAX_CODE_LENGTH n s2) as [w s3 | | |]; try discriminate.
      destruct (failed w) eqn:G.
      - apply failed_true in G. unfold ret. congruence.
      - apply expression_loop_never_succeeds. exact Ho. }
    destruct (token_type_eqb ty minussym).
    + unfold bind.
      destruct (emit MAX_CODE_LENGTH NEG 0 0 0 s1) as [a s2 | | |]; try discriminate.
      apply K.
    + apply K.
Qed.

End Chains.

(* ================================================================== *)
(** ** Lookups that are not checked *)

Section Lookups.
Variable MAX_CODE_LENGTH : nat.

#[local] Arguments findSymbol : simpl never.

(** [factor] tests the result of [findSymbol]. *)
Lemma factor_lookup_checked n s :
  findSymbol (symbolTable s) (currentScope s) (lexeme (token_at s 0)) = None ->
  factor MAX_CODE_LENGTH (S n) s = Ret 15%Z s.
Proof.
  unfold token_at. rewrite Nat.add_0_r. intros H.
  simpl. unfold bind, find_symbol. simpl. rewrite H. reflexivity.
Qed.

(** The assignment branch of [statement] does not. *)
Lemma assignment_lookup_unchecked n s :
  id (token_at s 0) = identsym ->
  findSymbol (symbolTable s) (currentScope s) (lexeme (token_at s 0)) = None ->
  statement MAX_CODE_LENGTH (S n) s = NullDeref.
Proof.
  unfold token_at. rewrite Nat.add_0_r. intros Hty H.
  simpl. unfold bind. simpl. rewrite Hty. simpl.
  unfold find_symbol. rewrite H. reflexivity.
Qed.

(** Nor do the branches for [call], [write] and [read]. *)
Lemma call_lookup_unchecked n s :
  id (token_at s 0) = callsym ->
  id (token_at s 1) = identsym ->
  findSymbol (symbolTable s) (currentScope s) (lexeme (token_at s 1)) = None ->
  statement MAX_CODE_LENGTH (S n) s = NullDeref.
Proof.
  unfold token_at. rewrite Nat.add_0_r, Nat.add_1_r. intros H0 H1 H.
  simpl. unfold bind. simpl. rewrite H0. simpl.
  unfold differs. rewrite H1. simpl. unfold find_symbol. rewrite H. reflexivity.
Qed.

Lemma write_lookup_unchecked n s :
  id (token_at s 0) = writesym ->
  id (token_at s 1) = identsym ->
  findSymbol (symbolTable s) (currentScope s) (lexeme (token_at s 1)) = None ->
  statement MAX_CODE_LENGTH (S n) s = NullDeref.
Proof.
  unfold token_at. rewrite Nat.add_0_r, Nat.add_1_r. intros H0 H1 H.
  simpl. unfold bind. simpl. rewrite H0. simpl.
  unfold differs. rewrite H1. simpl. unfold find_symbol. rewrite H. reflexivity.
Qed.

Lemma read_lookup_unchecked n s :
  id (token_at s 0) = readsym ->
  id (token_at s 1) = identsym ->
  findSymbol (symbolTable s) (currentScope s) (lexeme (token_at s 1)) = None ->
  nextCodeIndex s <> MAX_CODE_LENGTH ->
  statement MAX_CODE_LENGTH (S n) s = NullDeref.
Proof.
  unfold token_at. rewrite Nat.add_0_r, Nat.add_1_r. intros H0 H1 H Hc.
  simpl. unfold bind. simpl. rewrite H0. simpl.
  unfold emit. apply Nat.eqb_neq in Hc. rewrite Hc. simpl.
  unfold differs. rewrite H1. simpl. unfold find_symbol. rewrite H. reflexivity.
Qed.

End Lookups.

(* ================================================================== *)
(** ** The operator of a condition *)

Lemma token_type_eqb_neq a b : a <> b -> token_type_eqb a b = false.
Proof.
  unfold token_type_eqb. destruct (token_type_dec a b); [contradiction | reflexivity].
Qed.

(** X4.  After the first expression of a condition that does not start with
    [odd], a token that is none of the six relational operators is error
    12. *)
Lemma condition_bad_operator MAX_CODE_LENGTH n s s1 :
  id (token_at s 0) <> oddsym ->
  expression MAX_CODE_LENGTH n s = Ret 0%Z s1 ->
  relational (id (token_at s1 0)) = false ->
  condition MAX_CODE_LENGTH (S n) s = Ret 12%Z s1.
Proof.
  unfold token_at. rewrite !Nat.add_0_r. intros Hodd He Hrel.
  simpl. unfold bind. simpl.
  rewrite (token_type_eqb_neq _ _ Hodd). rewrite He. simpl.
  unfold relational in Hrel.
  repeat match type of Hrel with
  | _ || _ = false => apply orb_false_elim in Hrel; destruct Hrel as [Hrel ?]
  end.
  repeat match goal with
  | H : token_type_eqb _ _ = false |- _ => rewrite H; clear H
  end.
  reflexivity.
Qed.

(* ================================================================== *)
(** ** The scenarios of the specification, run on the generator *)

Module Scenarios.
Import Programs.

(** C6.  [var x; begin call x end.], with [x] a variable of the current
    scope: the error code is 17 and nothing is written to the output. *)
Theorem call_of_variable (c :
  nat) (h : nat -> Symbol) (vm0 : nat -> Instruction) :
  codeGenerator (3 + c) h scenario_3 vm0 = Returned 17 [].
Proof. vm_compute. reflexivity. Qed.

(** C1, as the code has it.  On the tokens of
    [const a = 5; var b; begin b := a + 1; write b end.] the generator
    returns error code 10 and prints nothing: [expression] stops in front
    of [+], and the statement list then finds [+] where it wants [;] or
    [end]. *)
Theorem scenario_1_rejected (c :
  nat) (h : nat -> Symbol) (vm0 : nat -> Instruction) :
  codeGenerator (4 + c) h scenario_1 vm0 = Returned 10 [].
Proof. vm_compute. reflexivity. Qed.

(** C2, as the code has it.  [expression] and [term] read the operator
    token once, before their first operand, and never again: on [x + x]
    (and on [x * x]) one operand is compiled and the cursor is left on the
    operator, so the program is rejected with code 10; after a leading
    [-], the operand and the negation are followed by a second call of
    [term] on the token after the operand, here [end], and the program is
    rejected with code 15. *)
Theorem chains_not_parsed (c :
  nat) (h : nat -> Symbol) (vm0 : nat -> Instruction) :
  expression (4 + c) 4 (before_rhs h sum)
    = Ret 0 (mkState sum 7 0 None [mkSymbol "x" VAR 0 None (value (h 0%nat)) 1]
               (StInstr 3 (mkInstruction LOD 0 0 1) :: vmStores (before_rhs h sum))
               4 0) /\
  term (4 + c) 3 (before_rhs h product)
    = Ret 0 (mkState product 7 0 None
               [mkSymbol "x" VAR 0 None (value (h 0%nat)) 1]
               (StInstr 3 (mkInstruction LOD 0 0 1) :: vmStores (before_rhs h product))
               4 0) /\
  codeGenerator (4 + c) h sum vm0 = Returned 10 [] /\
  codeGenerator (4 + c) h product vm0 = Returned 10 [] /\
  codeGenerator (5 + c) h negation vm0 = Returned 15 [].
Proof. repeat split; vm_compute; reflexivity. Qed.

(** C3, as the code has it.  In
    [var x; begin if odd x x then x := x else x := x end.] the conditional
    jump is at address 6, the then-branch at 7, the jump over the
    else-branch at 8, the else-branch at 9, and 10 is the address after
    it.  The conditional jump ends with target 10 and the unconditional
    one with target 9: the two targets are exchanged. *)
Theorem if_else_targets (c :
  nat) (h : nat -> Symbol) (vm0 : nat -> Instruction) :
  codeGenerator (12 + c) h if_else vm0 =
    Returned 0
      [mkInstruction JMP 0 0 2;
       mkInstruction INC 0 0 1;
       mkInstruction INC 0 0 4;
       mkInstruction LOD 0 0 1;
       mkInstruction ODD 0 0 0;
       mkInstruction LOD 0 0 1;
       mkInstruction JPC 0 0 10;
       mkInstruction LOD 0 0 1;
       mkInstruction JMP 0 0 9;
       mkInstruction LOD 0 0 1;
       mkInstruction RTN 0 0 0;
       mkInstruction SIO_HALT 0 0 3].
Proof. vm_compute. reflexivity. Qed.

(** C5, as the code has it.  After [odd x] and the is-odd test,
    [condition] compiles one more expression: [if odd x then ...] is
    rejected with code 15, raised by [factor] on the token [then].  For
    [x = x] the comparison is emitted between the two operands, not after
    them. *)
Theorem condition_order (c :
  nat) (h : nat -> Symbol) (vm0 : nat -> Instruction) :
  codeGenerator (5 + c) h if_odd vm0 = Returned 15 [] /\
  codeGenerator (10 + c) h if_equal vm0 =
    Returned 0
      [mkInstruction JMP 0 0 2;
       mkInstruction INC 0 0 1;
       mkInstruction INC 0 0 4;
       mkInstruction LOD 0 0 1;
       mkInstruction EQL 0 0 0;
       mkInstruction LOD 0 0 1;
       mkInstruction JPC 0 0 8;
       mkInstruction LOD 0 0 1;
       mkInstruction RTN 0 0 0;
       mkInstruction SIO_HALT 0 0 3].
Proof. split; vm_compute; reflexivity. Qed.

(** C10.  An identifier that is not in the symbol table, at the head of
    an assignment or after [call], [write] or [read]: the null result of
    [findSymbol] is read through, and no error code is returned.  In
    [factor] the same lookup result is tested, and the error code is 15. *)
Theorem unchecked_lookups (c :
  nat) (h : nat -> Symbol) (vm0 : nat -> Instruction) :
  codeGenerator (2 + c) h assign_undeclared vm0 = NullRead /\
  codeGenerator (2 + c) h call_undeclared vm0 = NullRead /\
  codeGenerator (2 + c) h write_undeclared vm0 = NullRead /\
  codeGenerator (3 + c) h read_undeclared vm0 = NullRead /\
  codeGenerator (3 + c) h factor_undeclared vm0 = Returned 15 [].
Proof. repeat split; vm_compute; reflexivity. Qed.

(** C9, as the code has it.  [const a = 5; begin write a end.]: the
    [write] branch takes a constant like a variable and emits a load from
    [address], the member that [const_declaration] never assigns; the
    third line printed shows what the block of [a] held when [malloc]
    returned it.  Compiled a second time, with the array the first
    compilation left and with blocks that hold 7 where they held 0, the
    same tokens print another third line. *)
Theorem write_of_constant (c :
  nat) (h : nat -> Symbol) (vm0 : nat -> Instruction) :
  codeGenerator (6 + c) h write_constant vm0 =
    Returned 0
      [mkInstruction JMP 0 0 1;
       mkInstruction INC 0 0 4;
       mkInstruction LOD 0 0 (address (h 0%nat));
       mkInstruction SIO_WRITE 0 0 0;
       mkInstruction RTN 0 0 0;
       mkInstruction SIO_HALT 0 0 3] /\
  codeGenerator (6 + c) (filled 7) write_constant
      (vmCode_after (6 + c) (filled 0) write_constant vm0)
    <> codeGenerator (6 + c) (filled 0) write_constant vm0.
Proof.
  split; [vm_compute; reflexivity|].
  vm_compute. discriminate.
Qed.

End Scenarios.

(* ================================================================== *)
(** ** Further properties: the bounds of [vmCode] *)

(** A call with a known behaviour, the postcondition kept whole. *)
Ltac post_call H :=
  eapply wp_mono; [ apply H |];
  let v := fresh "v" in let s := fresh "s" in let P := fresh "P" in
  intros v s P; cbv beta; proj_simpl.

Ltac capped_fin :=
  lazymatch goal with
  | |- capped _ _ _ _ => unfold capped in *; proj_simpl; lia
  end.

Ltac capped_go :=
  repeat first
    [ wp_prim
    | match goal with H : _ |- wp _ _ _ _ => post_call H end
    | capped_fin ].

Section Capacity.
Variable MAX_CODE_LENGTH : nat.

Lemma const_declaration_within heap fuel :
  within_capacity MAX_CODE_LENGTH (const_declaration heap fuel).
Proof.
  induction fuel as [| n IH]; intros s; [exact I|].
  simpl. capped_go.
Qed.

Lemma var_declaration_within heap fuel :
  within_capacity MAX_CODE_LENGTH (var_declaration MAX_CODE_LENGTH heap fuel).
Proof.
  induction fuel as [| n IH]; intros s; [exact I|].
  simpl. capped_go.
Qed.

Lemma expression_level_within fuel :
  within_capacity MAX_CODE_LENGTH (factor MAX_CODE_LENGTH fuel) /\
  (forall o, within_capacity MAX_CODE_LENGTH (term_loop MAX_CODE_LENGTH fuel o)) /\
  within_capacity MAX_CODE_LENGTH (term MAX_CODE_LENGTH fuel) /\
  (forall o, within_capacity MAX_CODE_LENGTH (expression_loop MAX_CODE_LENGTH fuel o)) /\
  within_capacity MAX_CODE_LENGTH (expression MAX_CODE_LENGTH fuel).
Proof.
  induction fuel as [| n (IHf & IHtl & IHt & IHel & IHe)].
  - repeat split; intros; exact I.
  - unfold within_capacity in *. repeat split; intros; simpl; capped_go.
Qed.

Lemma condition_within fuel :
  within_capacity MAX_CODE_LENGTH (condition MAX_CODE_LENGTH fuel).
Proof.
  destruct fuel as [| n]; intros s; [exact I|].
  destruct (expression_level_within n) as (_ & _ & _ & _ & He).
  unfold within_capacity in He. simpl. capped_go.
Qed.

Lemma statement_within fuel :
  within_capacity MAX_CODE_LENGTH (statement_list MAX_CODE_LENGTH fuel) /\
  within_capacity MAX_CODE_LENGTH (statement MAX_CODE_LENGTH fuel).
Proof.
  induction fuel as [| n (IHl & IHs)].
  - split; intros s; exact I.
  - pose proof (condition_within n) as Hc.
    destruct (expression_level_within n) as (_ & _ & _ & _ & He).
    unfold within_capacity in *. split; intros s; simpl; capped_go.
Qed.

Lemma block_within heap fuel :
  within_capacity MAX_CODE_LENGTH (proc_declaration MAX_CODE_LENGTH heap fuel) /\
  within_capacity MAX_CODE_LENGTH (block MAX_CODE_LENGTH heap fuel).
Proof.
  induction fuel as [| n (IHp & IHb)].
  - split; intros s; exact I.
  - pose proof (const_declaration_within heap n) as Hc.
    pose proof (var_declaration_within heap n) as Hv.
    destruct (statement_within n) as (_ & Hs).
    unfold within_capacity in *. split; intros s; simpl; capped_go.
Qed.

Lemma program_within heap fuel :
  within_capacity MAX_CODE_LENGTH (program MAX_CODE_LENGTH heap fuel).
Proof.
  destruct (block_within heap fuel) as (_ & Hb).
  unfold within_capacity in *. intros s. unfold program. capped_go.
Qed.

Lemma returned_inv heap tokens vm0 err out :
  codeGenerator MAX_CODE_LENGTH heap tokens vm0 = Returned err out ->
  exists s,
    program MAX_CODE_LENGTH heap (fuel_of tokens) (entry_state tokens) = Ret err s /\
    final_stores MAX_CODE_LENGTH heap tokens = vmStores s /\
    out = if failed err then [] else printEmittedCodes vm0 s.
Proof.
  unfold codeGenerator, final_stores.
  destruct (program MAX_CODE_LENGTH heap (fuel_of tokens) (entry_state tokens))
    as [v s | | |]; try discriminate.
  destruct (failed v) eqn:E; intros H; inversion H; subst;
    exists s; rewrite E; auto.
Qed.

Lemma printed_length vm0 s :
  List.length (printEmittedCodes vm0 s) = nextCodeIndex s.
Proof. unfold printEmittedCodes. now rewrite length_map, length_seq. Qed.

(** X5.  No store of a compilation that returns falls outside [vmCode]: the
    instructions written by [emit] and the jumps patched afterwards all
    lie below [MAX_CODE_LENGTH], and no more than [MAX_CODE_LENGTH] lines
    are printed. *)
Theorem stores_within_capacity heap tokens vm0 err out :
  codeGenerator MAX_CODE_LENGTH heap tokens vm0 = Returned err out ->
  Forall (fun w => (store_addr w < MAX_CODE_LENGTH)%nat)
    (final_stores MAX_CODE_LENGTH heap tokens) /\
  (List.length out <= MAX_CODE_LENGTH)%nat.
Proof.
  intros H. apply returned_inv in H. destruct H as (s & E & -> & ->).
  pose proof (program_within heap (fuel_of tokens) (entry_state tokens)) as W.
  unfold wp in W. rewrite E in W. unfold capped in W. simpl in W.
  specialize (W (Nat.le_0_l _)).
  destruct (program_stores _ _ _ _ _ E) as [G _].
  split.
  - apply Forall_forall. intros w Hw.
    pose proof (seg_addr _ _ _ _ G Hw). lia.
  - destruct (failed err); [simpl; lia | rewrite printed_length; exact W].
Qed.

End Capacity.

Module Capacity_example.
Import Programs.

Lemma stores_within_capacity_witness :
  Forall (fun w => (store_addr w < 12)%nat) (final_stores 12 zeroed if_else) /\
  (List.length (match codeGenerator 12 zeroed if_else blank with
                | Returned _ out => out
                | _ => []
                end) <= 12)%nat.
Proof.
  apply (stores_within_capacity 12 zeroed if_else blank 0%Z).
  vm_compute. reflexivity.
Defined.

End Capacity_example.


(* ================================================================== *)
(** ** Further properties: the level and the scope *)

Lemma level_round_trip lv :
  (0 <= lv < 2 ^ 32)%Z ->
  wrap_unsigned (wrap_unsigned (lv + 1) - 1) = lv.
Proof.
  intros H. unfold wrap_unsigned.
  rewrite Zminus_mod_idemp_l.
  replace (lv + 1 - 1)%Z with lv by lia.
  apply Z.mod_small. exact H.
Qed.

Lemma wrap_unsigned_range z : (0 <= wrap_unsigned z < 2 ^ 32)%Z.
Proof. unfold wrap_unsigned. apply Z.mod_pos_bound. reflexivity. Qed.

Ltac kept_hyps :=
  repeat match goal with
  | H : kept _ 0%Z _ |- _ => destruct (H eq_refl) as [? ?]; clear H
  end.

Ltac kept_side :=
  unfold level_ok in *; kept_hyps; proj_simpl;
  first [ apply wrap_unsigned_range | lia ].

Ltac kept_call H :=
  eapply wp_mono; [ apply H; solve [kept_side] |];
  let v := fresh "v" in let s := fresh "s" in let P := fresh "P" in
  intros v s P; cbv beta; proj_simpl.

Ltac kept_fin :=
  lazymatch goal with
  | |- kept _ _ _ =>
      let Z := fresh "Z" in
      kept_hyps; unfold kept in *; proj_simpl; intros Z;
      first
        [ discriminate Z
        | congruence
        | repeat match goal with
          | H : ?v = 0%Z -> _ /\ _ |- _ => destruct (H Z) as [? ?]; clear H
          end;
          repeat match goal with
          | H : currentLevel ?s = wrap_unsigned (currentLevel ?s0 + 1) |- _ =>
              rewrite H in *; clear H
          end;
          unfold level_ok in *;
          rewrite ?level_round_trip in * by assumption;
          split; congruence ]
  end.

Ltac kept_go :=
  repeat first
    [ wp_prim
    | match goal with H : _ |- wp _ _ _ _ => kept_call H end
    | kept_fin ].

Section Levels.
Variable MAX_CODE_LENGTH : nat.

Lemma const_declaration_keeps heap fuel : keeps (const_declaration heap fuel).
Proof.
  induction fuel as [| n IH]; intros s L; [exact I|].
  simpl. kept_go.
Qed.

Lemma var_declaration_keeps heap fuel :
  keeps (var_declaration MAX_CODE_LENGTH heap fuel).
Proof.
  induction fuel as [| n IH]; intros s L; [exact I|].
  simpl. kept_go.
Qed.

Lemma expression_level_keeps fuel :
  keeps (factor MAX_CODE_LENGTH fuel) /\
  (forall o, keeps (term_loop MAX_CODE_LENGTH fuel o)) /\
  keeps (term MAX_CODE_LENGTH fuel) /\
  (forall o, keeps (expression_loop MAX_CODE_LENGTH fuel o)) /\
  keeps (expression MAX_CODE_LENGTH fuel).
Proof.
  induction fuel as [| n (IHf & IHtl & IHt & IHel & IHe)].
  - repeat split; intros; exact I.
  - unfold keeps in *. repeat split; intros; simpl; kept_go.
Qed.

Lemma condition_keeps fuel : keeps (condition MAX_CODE_LENGTH fuel).
Proof.
  destruct fuel as [| n]; intros s L; [exact I|].
  destruct (expression_level_keeps n) as (_ & _ & _ & _ & He).
  unfold keeps in He. simpl. kept_go.
Qed.

Lemma statement_keeps fuel :
  keeps (statement_list MAX_CODE_LENGTH fuel) /\
  keeps (statement MAX_CODE_LENGTH fuel).
Proof.
  induction fuel as [| n (IHl & IHs)].
  - split; intros s L; exact I.
  - pose proof (condition_keeps n) as Hc.
    destruct (expression_level_keeps n) as (_ & _ & _ & _ & He).
    unfold keeps in *. split; intros s L; simpl; kept_go.
Qed.

Lemma block_keeps heap fuel :
  keeps (proc_declaration MAX_CODE_LENGTH heap fuel) /\
  keeps (block MAX_CODE_LENGTH heap fuel).
Proof.
  induction fuel as [| n (IHp & IHb)].
  - split; intros s L; exact I.
  - pose proof (const_declaration_keeps heap n) as Hc.
    pose proof (var_declaration_keeps heap n) as Hv.
    destruct (statement_keeps n) as (_ & Hs).
    unfold keeps in *. split; intros s L; simpl.
    + kept_go.
    + kept_go.
Qed.

End Levels.

(* ================================================================== *)
(** ** Further properties: the code of an expression *)

Ltac load_fin :=
  let Z := fresh "Z" in
  lazymatch goal with
  | |- one_load _ _ _ => unfold one_load, loop_idle, multiplicative, additive in *; intros Z
  | |- loop_idle _ _ _ _ => unfold one_load, loop_idle, multiplicative, additive in *; intros Z
  end;
  first
    [ discriminate Z
    | congruence
    | solve [ split; [assumption | reflexivity] ]
    | solve [ repeat match goal with
              | H : ?v = 0%Z -> _ /\ _ |- _ => destruct (H Z) as [? ?]; clear H
              end; subst; congruence ]
    | solve [ repeat match goal with
              | H : ?v = 0%Z -> _ /\ _ |- _ => destruct (H Z) as [? ?]; clear H
              end;
              repeat match goal with
              | H : context [token_type_eqb _ _] |- _ => revert H
              end;
              repeat match goal with
              | |- context [token_type_eqb ?a ?b] =>
                  destruct (token_type_eqb a b)
              end; simpl; intros; congruence ]
    | solve [ repeat match goal with
              | H : ?v = 0%Z -> _ /\ _ |- _ => destruct (H Z) as [? ?]; clear H
              | H : 0%Z = 0%Z -> (exists _, _) |- _ =>
                  destruct (H eq_refl) as (? & ? & ? & ?); clear H
              | H : ?v = 0%Z -> (exists _, _) |- _ =>
                  destruct (H Z) as (? & ? & ? & ?); clear H
              end; subst; proj_simpl;
              eexists; split; [| split; [eassumption || reflexivity
                                        | eassumption || reflexivity ]];
              first [ assumption | unfold is_load; simpl; tauto ] ] ].

Ltac load_go :=
  repeat first
    [ wp_prim
    | match goal with H : _ |- wp _ _ _ _ => post_call H end
    | load_fin ].

Section Loads.
Variable MAX_CODE_LENGTH : nat.

Lemma expression_level_loads fuel :
  (forall s, wp True (factor MAX_CODE_LENGTH fuel) (one_load s) s) /\
  (forall o s, wp True (term_loop MAX_CODE_LENGTH fuel o)
                 (loop_idle (multiplicative o) s) s) /\
  (forall s, wp True (term MAX_CODE_LENGTH fuel) (one_load s) s) /\
  (forall o s, wp True (expression_loop MAX_CODE_LENGTH fuel o)
                 (loop_idle (additive o) s) s) /\
  (forall s, wp True (expression MAX_CODE_LENGTH fuel) (one_load s) s).
Proof.
  induction fuel as [| n (IHf & IHtl & IHt & IHel & IHe)].
  - repeat split; intros; exact I.
  - repeat split; intros; simpl.
    + load_go.
    + load_go.
    + load_go.
    + load_go.
    + load_go.
Qed.

End Loads.

(* ================================================================== *)
(** ** Further properties: no arithmetic in accepted programs *)

Ltac clean_hyps Z :=
  repeat match goal with
  | H : clean _ 0%Z _ |- _ => destruct (H eq_refl) as (? & ? & ?); clear H
  | H : clean _ ?v _ |- _ => destruct (H Z) as (? & ? & ?); clear H
  end.

Ltac forall_plain :=
  repeat first
    [ apply Forall_nil
    | assumption
    | apply Forall_cons; [ first [ exact I | reflexivity ] |]
    | apply Forall_app; split ].

Ltac clean_fin :=
  lazymatch goal with
  | |- clean ?s0 ?v ?s =>
      let Z := fresh "Z" in
      intros Z;
      first
        [ discriminate Z
        | congruence
        | clean_hyps Z; proj_simpl; rewrite_stores;
          lazymatch goal with
          | |- exists t, ?X = _ /\ _ =>
              let t := stores_since X (vmStores s0) in
              exists t; split
          end;
          [ repeat (progress (simpl; rewrite <- ?app_assoc)); reflexivity
          | forall_plain ] ]
  end.

Ltac clean_go :=
  repeat first
    [ wp_prim
    | match goal with H : _ |- wp _ _ _ _ => post_call H end
    | clean_fin ].

Lemma vmCode_op vm0 ws a :
  (exists i, In (StInstr a i) ws) ->
  exists i, In (StInstr a i) ws /\ op (vmCode vm0 ws a) = op i.
Proof.
  induction ws as [| [b j | b v] ws IH]; simpl; intros [i Hi].
  - contradiction.
  - destruct (Nat.eqb_spec a b) as [-> | Hne].
    + exists j. auto.
    + destruct Hi as [Heq | Hi]; [congruence|].
      destruct IH as (k & Hk & Ek); [eauto|]. exists k. auto.
  - destruct Hi as [Heq | Hi]; [discriminate|].
    destruct IH as (k & Hk & Ek); [eauto|]. exists k. split; [auto|].
    destruct (Nat.eqb a b); simpl; exact Ek.
Qed.

Lemma vmCode_op_l vm0 ws a :
  (exists i, In (StInstr a i) ws) ->
  exists i, In (StInstr a i) ws /\
    op (vmCode vm0 ws a) = op i /\ l (vmCode vm0 ws a) = l i.
Proof.
  induction ws as [| [b j | b v] ws IH]; simpl; intros [i Hi].
  - contradiction.
  - destruct (Nat.eqb_spec a b) as [-> | Hne].
    + exists j. auto.
    + destruct Hi as [Heq | Hi]; [congruence|].
      destruct IH as (k & Hk & Ek); [eauto|]. exists k. auto.
  - destruct Hi as [Heq | Hi]; [discriminate|].
    destruct IH as (k & Hk & Ek); [eauto|]. exists k. split; [auto|].
    destruct (Nat.eqb a b); simpl; exact Ek.
Qed.

Section Clean.
Variable MAX_CODE_LENGTH : nat.

Lemma one_load_clean s v s' : one_load s v s' -> clean s v s'.
Proof.
  intros H Z. destruct (H Z) as (i & L & V & _).
  exists [StInstr (nextCodeIndex s) i]. split; [exact V|].
  constructor; [| constructor]. simpl.
  destruct L as [L | L]; rewrite L; reflexivity.
Qed.

Lemma expression_cleanly fuel : cleanly (expression MAX_CODE_LENGTH fuel).
Proof.
  intros s. destruct (expression_level_loads MAX_CODE_LENGTH fuel) as (_ & _ & _ & _ & He).
  eapply wp_mono; [apply He|]. intros v s'. apply one_load_clean.
Qed.

Lemma const_declaration_cleanly heap fuel :
  cleanly (const_declaration heap fuel).
Proof.
  induction fuel as [| n IH]; intros s; [exact I|].
  simpl. clean_go.
Qed.

Lemma var_declaration_cleanly heap fuel :
  cleanly (var_declaration MAX_CODE_LENGTH heap fuel).
Proof.
  induction fuel as [| n IH]; intros s; [exact I|].
  simpl. clean_go.
Qed.

Lemma condition_cleanly fuel : cleanly (condition MAX_CODE_LENGTH fuel).
Proof.
  destruct fuel as [| n]; intros s; [exact I|].
  pose proof (expression_cleanly n) as He.
  unfold cleanly in He. simpl. clean_go.
Qed.

Lemma statement_cleanly fuel :
  cleanly (statement_list MAX_CODE_LENGTH fuel) /\
  cleanly (statement MAX_CODE_LENGTH fuel).
Proof.
  induction fuel as [| n (IHl & IHs)].
  - split; intros s; exact I.
  - pose proof (condition_cleanly n) as Hc.
    pose proof (expression_cleanly n) as He.
    unfold cleanly in *. split; intros s; simpl; clean_go.
Qed.

Lemma block_cleanly heap fuel :
  cleanly (proc_declaration MAX_CODE_LENGTH heap fuel) /\
  cleanly (block MAX_CODE_LENGTH heap fuel).
Proof.
  induction fuel as [| n (IHp & IHb)].
  - split; intros s; exact I.
  - pose proof (const_declaration_cleanly heap n) as Hc.
    pose proof (var_declaration_cleanly heap n) as Hv.
    destruct (statement_cleanly n) as (_ & Hs).
    unfold cleanly in *. split; intros s; simpl; clean_go.
Qed.

Lemma program_cleanly heap fuel : cleanly (program MAX_CODE_LENGTH heap fuel).
Proof.
  destruct (block_cleanly heap fuel) as (_ & Hb).
  unfold cleanly in *. intros s. unfold program. clean_go.
Qed.

(** X6.  Whatever the tokens, the printed code holds no [NEG], [ADD], [SUB],
    [MUL] or [DIV]: a program in which [expression] or [term] emits one of
    them is never accepted. *)
Theorem no_arithmetic_printed heap tokens vm0 err out :
  codeGenerator MAX_CODE_LENGTH heap tokens vm0 = Returned err out ->
  Forall (fun i => arithmetic (op i) = false) out.
Proof.
  intros H. apply returned_inv in H. destruct H as (s & E & _ & ->).
  destruct (failed err) eqn:F; [constructor|].
  apply failed_false in F. subst err.
  pose proof (program_cleanly heap (fuel_of tokens) (entry_state tokens)) as W.
  unfold wp in W. rewrite E in W.
  destruct (W eq_refl) as (t & V & P). simpl in V. rewrite app_nil_r in V.
  destruct (program_stores _ _ _ _ _ E) as [G _].
  unfold printEmittedCodes. apply Forall_forall. intros i Hi.
  apply in_map_iff in Hi. destruct Hi as (a & <- & Ha). apply in_seq in Ha.
  destruct (vmCode_op vm0 (vmStores s) a) as (j & Hj & Ej).
  { apply (seg_covered _ _ _ a G). lia. }
  rewrite Ej. rewrite V in Hj.
  exact (proj1 (Forall_forall _ _) P _ Hj).
Qed.

End Clean.

(* ================================================================== *)
(** ** Further properties: declaration groups *)

Section Declarations.
Variable MAX_CODE_LENGTH : nat.

Lemma declared_vars_step heap s s1 n :
  tokenList s1 = tokenList s ->
  currentTokenInd s1 = (currentTokenInd s + 2)%nat ->
  currentLevel s1 = currentLevel s ->
  currentScope s1 = currentScope s ->
  nextCodeIndex s1 = S (nextCodeIndex s) ->
  List.length (symbolTable s1) = S (List.length (symbolTable s)) ->
  declared_vars heap s (S n) =
    mkSymbol (lexeme (token_at s 1)) VAR (currentLevel s) (currentScope s)
      (value (heap (List.length (symbolTable s))))
      (Z.of_nat (nextCodeIndex s))
    :: declared_vars heap s1 n.
Proof.
  intros T I L C N K. unfold declared_vars.
  rewrite <- cons_seq, <- seq_shift. rewrite map_cons, map_map.
  f_equal; [simpl; rewrite !Nat.add_0_r; reflexivity|].
  apply map_ext. intros k. unfold token_at. rewrite T, I, L, C, N, K.
  replace (currentTokenInd s + (1 + 2 * S k))%nat
    with (currentTokenInd s + 2 + (1 + 2 * k))%nat by lia.
  replace (nextCodeIndex s + S k)%nat with (S (nextCodeIndex s) + k)%nat by lia.
  replace (List.length (symbolTable s) + S k)%nat
    with (S (List.length (symbolTable s)) + k)%nat by lia.
  reflexivity.
Qed.

Lemma var_increments_step s s1 n :
  nextCodeIndex s1 = S (nextCodeIndex s) ->
  var_increments s (S n) =
    var_increments s1 n ++ [StInstr (nextCodeIndex s) (mkInstruction INC 0 0 1)].
Proof.
  intros N. unfold var_increments.
  rewrite <- cons_seq, <- seq_shift. rewrite map_cons, map_map.
  rewrite Nat.add_0_r. simpl. f_equal. f_equal.
  apply map_ext. intros k. rewrite N.
  replace (nextCodeIndex s + S k)%nat with (S (nextCodeIndex s) + k)%nat by lia.
  reflexivity.
Qed.

(** X7.  A variable declaration group that succeeds declared [n >= 1]
    variables: it called [addSymbol] on [n] [VAR] symbols of the current
    level and scope whose addresses are the successive values of
    [nextCodeIndex], wrote one [INC 0 0 1] for each, and moved the cursor
    over [var], the [n] names, the commas between them and the
    semicolon. *)
Theorem var_declaration_group heap fuel s s' :
  var_declaration MAX_CODE_LENGTH heap fuel s = Ret 0%Z s' ->
  exists n, (1 <= n)%nat /\
    symbolTable s' = fold_left addSymbol (declared_vars heap s n) (symbolTable s) /\
    vmStores s' = var_increments s n ++ vmStores s /\
    nextCodeIndex s' = (nextCodeIndex s + n)%nat /\
    currentTokenInd s' = (currentTokenInd s + 2 * n + 1)%nat /\
    tokenList s' = tokenList s /\
    currentLevel s' = currentLevel s /\ currentScope s' = currentScope s.
Proof.
  revert s. induction fuel as [| f IH]; intros s H; [discriminate|].
  simpl in H. unfold bind in H. simpl in H.
  destruct (differs _ identsym) eqn:E1; [discriminate|].
  unfold emit in H. simpl in H.
  destruct (Nat.eqb (nextCodeIndex s) MAX_CODE_LENGTH); [discriminate|].
  simpl in H.
  destruct (token_type_eqb _ commasym) eqn:E2.
  - match type of H with
    | var_declaration _ _ _ ?st = _ => set (s1 := st) in H
    end.
    apply IH in H. destruct H as (n & Hn & Ht & Hv & Hc & Hi & Hk & Hl & Hs).
    exists (S n).
    split; [lia|].
    split.
    { rewrite Ht.
      rewrite (declared_vars_step heap s s1 n); try reflexivity.
      - simpl. unfold token_at. rewrite Nat.add_1_r. reflexivity.
      - simpl. lia.
      - simpl. unfold addSymbol. rewrite length_app. simpl. lia. }
    split.
    { rewrite Hv. rewrite (var_increments_step s s1 n eq_refl).
      rewrite <- app_assoc. reflexivity. }
    rewrite Hc, Hi, Hk, Hl, Hs. simpl.
    repeat split; lia.
  - destruct (differs _ semicolonsym); [discriminate|].
    inversion H; subst s'; clear H. simpl. exists 1%nat.
    unfold declared_vars, var_increments, token_at. simpl.
    rewrite !Nat.add_0_r, Nat.add_1_r.
    repeat split; try reflexivity; lia.
Qed.

Lemma declared_consts_step heap s s1 n :
  tokenList s1 = tokenList s ->
  currentTokenInd s1 = (currentTokenInd s + 4)%nat ->
  currentLevel s1 = currentLevel s ->
  currentScope s1 = currentScope s ->
  List.length (symbolTable s1) = S (List.length (symbolTable s)) ->
  declared_consts heap s (S n) =
    mkSymbol (lexeme (token_at s 1)) CONST (currentLevel s) (currentScope s)
      (atoi (lexeme (token_at s 3)))
      (address (heap (List.length (symbolTable s))))
    :: declared_consts heap s1 n.
Proof.
  intros T I L C K. unfold declared_consts.
  rewrite <- cons_seq, <- seq_shift. rewrite map_cons, map_map.
  f_equal; [simpl; rewrite !Nat.add_0_r; reflexivity|].
  apply map_ext. intros k. unfold token_at. rewrite T, I, L, C, K.
  replace (List.length (symbolTable s) + S k)%nat
    with (S (List.length (symbolTable s)) + k)%nat by lia.
  replace (currentTokenInd s + (1 + 4 * S k))%nat
    with (currentTokenInd s + 4 + (1 + 4 * k))%nat by lia.
  replace (currentTokenInd s + (3 + 4 * S k))%nat
    with (currentTokenInd s + 4 + (3 + 4 * k))%nat by lia.
  reflexivity.
Qed.

(** X8.  A constant declaration group that succeeds declared [n >= 1]
    constants: it called [addSymbol] on [n] [CONST] symbols of the current
    level and scope, each with the value [atoi] gives for its number
    token, moved the cursor over [const], [n] times name, [=] and number,
    the commas and the semicolon, and wrote no code. *)
Theorem const_declaration_group heap fuel s s' :
  const_declaration heap fuel s = Ret 0%Z s' ->
  exists n, (1 <= n)%nat /\
    symbolTable s' = fold_left addSymbol (declared_consts heap s n) (symbolTable s) /\
    vmStores s' = vmStores s /\
    nextCodeIndex s' = nextCodeIndex s /\
    currentTokenInd s' = (currentTokenInd s + 4 * n + 1)%nat /\
    tokenList s' = tokenList s /\
    currentLevel s' = currentLevel s /\ currentScope s' = currentScope s.
Proof.
  revert s. induction fuel as [| f IH]; intros s H; [discriminate|].
  simpl in H. unfold bind in H. simpl in H.
  destruct (differs _ identsym) eqn:E1; [discriminate|].
  destruct (differs _ eqsym) eqn:E2; [discriminate|].
  destruct (differs _ numbersym) eqn:E3; [discriminate|].
  simpl in H.
  destruct (token_type_eqb _ commasym) eqn:E4.
  - match type of H with
    | const_declaration _ _ ?st = _ => set (s1 := st) in H
    end.
    apply IH in H. destruct H as (n & Hn & Ht & Hv & Hc & Hi & Hk & Hl & Hs).
    exists (S n).
    split; [lia|].
    split.
    { rewrite Ht.
      rewrite (declared_consts_step heap s s1 n); try reflexivity.
      - simpl. unfold token_at.
        replace (currentTokenInd s + 1)%nat with (S (currentTokenInd s)) by lia.
        replace (currentTokenInd s + 3)%nat
          with (S (S (S (currentTokenInd s)))) by lia.
        reflexivity.
      - simpl. lia.
      - simpl. unfold addSymbol. rewrite length_app. simpl. lia. }
    rewrite Hv, Hc, Hi, Hk, Hl, Hs. simpl.
    repeat split; lia.
  - destruct (differs _ semicolonsym); [discriminate|].
    inversion H; subst s'; clear H. simpl. exists 1%nat.
    unfold declared_consts, token_at. simpl.
    replace (currentTokenInd s + 1)%nat with (S (currentTokenInd s)) by lia.
    replace (currentTokenInd s + 3)%nat
      with (S (S (S (currentTokenInd s)))) by lia.
    rewrite Nat.add_0_r.
    repeat split; try reflexivity; lia.
Qed.

End Declarations.

(* ================================================================== *)
(** ** Further properties: the frame of the printed code *)

Ltac block_code_fin :=
  lazymatch goal with
  | |- block_code ?s0 ?v ?s =>
      let Z := fresh "Z" in
      unfold block_code; intros Z;
      first
        [ discriminate Z
        | congruence
        | proj_simpl; rewrite_stores;
          let base := constr:(StInstr (nextCodeIndex s0) (mkInstruction JMP 0 0 0)
                                :: vmStores s0) in
          lazymatch goal with
          | |- exists p q t_d t_s,
                 StInstr ?q0 _ :: ?ts ++ StInstr ?p0 _ :: StM _ _ :: ?rest = _ /\ _ =>
              let td := stores_since rest base in
              exists p0, q0, td, ts
          end;
          split; [| split; [| split]];
          [ repeat (progress (simpl; rewrite <- ?app_assoc)); reflexivity
          | seg_tac
          | seg_tac
          | reflexivity ] ]
  end.

Section Frame.
Variable MAX_CODE_LENGTH : nat.

Lemma block_stores heap fuel s :
  wp True (block MAX_CODE_LENGTH heap fuel) (block_code s) s.
Proof.
  destruct fuel as [| n]; [exact I|].
  pose proof (const_declaration_sound heap n) as Hc.
  pose proof (var_declaration_sound MAX_CODE_LENGTH heap n) as Hv.
  destruct (block_sound MAX_CODE_LENGTH heap n) as (Hp & _).
  destruct (statement_sound MAX_CODE_LENGTH n) as (_ & Hs).
  unfold sound, sound_in_block in *.
  simpl.
  repeat first
    [ wp_prim
    | match goal with H : _ |- wp _ _ _ _ => wp_call H end
    | block_code_fin ].
Qed.

Lemma vmCode_instr_same vm0 ws a i :
  vmCode vm0 (StInstr a i :: ws) a = i.
Proof. simpl. now rewrite Nat.eqb_refl. Qed.

Lemma vmCode_instr_other vm0 ws a b i :
  a <> b -> vmCode vm0 (StInstr b i :: ws) a = vmCode vm0 ws a.
Proof. intros H. simpl. apply Nat.eqb_neq in H. now rewrite H. Qed.

Lemma vmCode_patch_same vm0 ws a v :
  vmCode vm0 (StM a v :: ws) a =
    mkInstruction (op (vmCode vm0 ws a)) (r (vmCode vm0 ws a))
      (l (vmCode vm0 ws a)) v.
Proof. simpl. now rewrite Nat.eqb_refl. Qed.

Lemma vmCode_patch_other vm0 ws a b v :
  a <> b -> vmCode vm0 (StM b v :: ws) a = vmCode vm0 ws a.
Proof. intros H. simpl. apply Nat.eqb_neq in H. now rewrite H. Qed.

Lemma printed_nth vm0 s a :
  (a < nextCodeIndex s)%nat ->
  nth_error (printEmittedCodes vm0 s) a = Some (vmCode vm0 (vmStores s) a).
Proof.
  intros H. unfold printEmittedCodes.
  rewrite nth_error_map, nth_error_seq.
  apply Nat.ltb_lt in H. rewrite H. reflexivity.
Qed.

(** X9.  The printed code of an accepted program: line 0 is a jump to a line
    [p > 0] that holds [INC 0 0 4], and the last two lines are
    [RTN 0 0 0] and the halt [SIO_HALT 0 0 3]. *)
Theorem accepted_code_frame heap tokens vm0 out :
  codeGenerator MAX_CODE_LENGTH heap tokens vm0 = Returned 0 out ->
  exists p q, (0 < p < q)%nat /\
    List.length out = (q + 2)%nat /\
    nth_error out 0 = Some (mkInstruction JMP 0 0 (Z.of_nat p)) /\
    nth_error out p = Some (mkInstruction INC 0 0 4) /\
    nth_error out q = Some (mkInstruction RTN 0 0 0) /\
    nth_error out (S q) = Some (mkInstruction SIO_HALT 0 0 3).
Proof.
  intros H. apply accepted_inv in H. destruct H as (s & E & -> & _).
  unfold program in E.
  apply bind_inv in E. destruct E as (e & sb & Eb & E).
  apply continue_inv in E. destruct E as [-> E].
  apply bind_inv in E. destruct E as (ty & s1 & E1 & E).
  apply getCurrentTokenType_inv in E1. destruct E1 as [-> ->].
  destruct (token_type_eqb _ periodsym); [| discriminate].
  apply bind_inv in E. destruct E as ([] & s2 & E2 & E).
  inversion E2; subst s2; clear E2.
  apply bind_inv in E. destruct E as (h & s3 & E3 & E).
  inversion E; subst s3; clear E.
  unfold emit in E3. proj_simpl.
  destruct (Nat.eqb (nextCodeIndex sb) MAX_CODE_LENGTH); [discriminate|].
  inversion E3; subst h s; clear E3.
  pose proof (block_stores heap (fuel_of tokens) (entry_state tokens)) as W.
  unfold wp in W. rewrite Eb in W.
  destruct (W eq_refl) as (p & q & t_d & t_s & V & Gd & Gs & N). clear W.
  simpl in V, Gd.
  pose proof (seg_le _ _ _ Gd) as Ld. pose proof (seg_le _ _ _ Gs) as Ls.
  exists p, q. split; [lia|].
  split. { rewrite printed_length. simpl. lia. }
  rewrite !printed_nth by (simpl; lia).
  cbn [vmStores]. rewrite V, N.
  split; [| split; [| split]]; f_equal.
  - rewrite !vmCode_instr_other by lia.
    rewrite (vmCode_seg_skip _ _ _ _ _ _ Gs) by lia.
    rewrite vmCode_instr_other by lia.
    rewrite vmCode_patch_same.
    rewrite (vmCode_seg_skip _ _ _ _ _ _ Gd) by lia.
    rewrite vmCode_instr_same. reflexivity.
  - rewrite !vmCode_instr_other by lia.
    rewrite (vmCode_seg_skip _ _ _ _ _ _ Gs) by lia.
    apply vmCode_instr_same.
  - rewrite vmCode_instr_other by lia.
    apply vmCode_instr_same.
  - apply vmCode_instr_same.
Qed.

End Frame.

(* ================================================================== *)
(** ** Further properties: the error codes *)

Ltac coded_fin :=
  lazymatch goal with
  | |- error_code _ _ _ => unfold error_code in *; lia
  end.

Ltac coded_go :=
  repeat first
    [ wp_prim
    | match goal with H : _ |- wp _ _ _ _ => post_call H end
    | coded_fin ].

Section Codes.
Variable MAX_CODE_LENGTH : nat.

Lemma const_declaration_coded heap fuel : coded (const_declaration heap fuel).
Proof.
  induction fuel as [| n IH]; intros s; [exact I|].
  simpl. coded_go.
Qed.

Lemma var_declaration_coded heap fuel :
  coded (var_declaration MAX_CODE_LENGTH heap fuel).
Proof.
  induction fuel as [| n IH]; intros s; [exact I|].
  simpl. coded_go.
Qed.

Lemma expression_level_coded fuel :
  coded (factor MAX_CODE_LENGTH fuel) /\
  (forall o, coded (term_loop MAX_CODE_LENGTH fuel o)) /\
  coded (term MAX_CODE_LENGTH fuel) /\
  (forall o, coded (expression_loop MAX_CODE_LENGTH fuel o)) /\
  coded (expression MAX_CODE_LENGTH fuel).
Proof.
  induction fuel as [| n (IHf & IHtl & IHt & IHel & IHe)].
  - repeat split; intros; exact I.
  - unfold coded in *. repeat split; intros; simpl; coded_go.
Qed.

Lemma condition_coded fuel : coded (condition MAX_CODE_LENGTH fuel).
Proof.
  destruct fuel as [| n]; intros s; [exact I|].
  destruct (expression_level_coded n) as (_ & _ & _ & _ & He).
  unfold coded in He. simpl. coded_go.
Qed.

Lemma statement_coded fuel :
  coded (statement_list MAX_CODE_LENGTH fuel) /\
  coded (statement MAX_CODE_LENGTH fuel).
Proof.
  induction fuel as [| n (IHl & IHs)].
  - split; intros s; exact I.
  - pose proof (condition_coded n) as Hc.
    destruct (expression_level_coded n) as (_ & _ & _ & _ & He).
    unfold coded in *. split; intros s; simpl; coded_go.
Qed.

Lemma block_coded heap fuel :
  coded (proc_declaration MAX_CODE_LENGTH heap fuel) /\
  coded (block MAX_CODE_LENGTH heap fuel).
Proof.
  induction fuel as [| n (IHp & IHb)].
  - split; intros s; exact I.
  - pose proof (const_declaration_coded heap n) as Hc.
    pose proof (var_declaration_coded heap n) as Hv.
    destruct (statement_coded n) as (_ & Hs).
    unfold coded in *. split; intros s; simpl; coded_go.
Qed.

(** X10.  Every error code [codeGenerator] returns lies between 0 and 19; 24,
    the code named in the comment of [factor], is never returned. *)
Theorem error_codes_bounded heap tokens vm0 err out :
  codeGenerator MAX_CODE_LENGTH heap tokens vm0 = Returned err out ->
  (0 <= err <= 19)%Z.
Proof.
  intros H. apply returned_inv in H. destruct H as (s & E & _ & _).
  destruct (block_coded heap (fuel_of tokens)) as (_ & Hb).
  assert (W : wp True (program MAX_CODE_LENGTH heap (fuel_of tokens))
                (error_code (entry_state tokens)) (entry_state tokens)).
  { unfold coded in Hb. unfold program. coded_go. }
  unfold wp in W. rewrite E in W. exact W.
Qed.

End Codes.

(* ================================================================== *)
(** ** Further properties: the code of a loop *)

(** Decide the tests of a token kind that is known. *)
Ltac known_token k :=
  repeat match goal with
  | |- context [token_type_eqb k ?k'] =>
      let b := eval vm_compute in (token_type_eqb k k') in
      change (token_type_eqb k k') with b
  | |- context [differs k ?k'] =>
      let b := eval vm_compute in (differs k k') in
      change (differs k k') with b
  end.

Ltac while_code_fin :=
  lazymatch goal with
  | |- while_code ?s0 ?v ?s =>
      let Z := fresh "Z" in
      unfold while_code; intros Z;
      first
        [ discriminate Z
        | congruence
        | proj_simpl; rewrite_stores;
          lazymatch goal with
          | |- exists j2 q t_c t_b,
                 StM ?j _ :: StInstr ?q0 _ :: ?tb ++ StInstr _ _ :: ?rest = _ /\ _ =>
              let tc := stores_since rest (vmStores s0) in
              exists j, q0, tc, tb
          end;
          split; [| split; [| split]];
          [ repeat (progress (simpl; rewrite <- ?app_assoc)); reflexivity
          | seg_tac
          | seg_tac
          | reflexivity ] ]
  end.

Section Loop.
Variable MAX_CODE_LENGTH : nat.

Lemma while_stores n s :
  id (token_at s 0) = whilesym ->
  wp True (statement MAX_CODE_LENGTH (S n)) (while_code s) s.
Proof.
  unfold token_at. rewrite Nat.add_0_r. intros Hw.
  pose proof (condition_sound MAX_CODE_LENGTH n) as Hc.
  destruct (statement_sound MAX_CODE_LENGTH n) as (_ & Hs).
  unfold sound, sound_in_block in *.
  simpl. do 2 wp_prim. rewrite Hw. known_token whilesym. cbv iota.
  repeat first
    [ wp_prim
    | match goal with H : _ |- wp _ _ _ _ => wp_call H end
    | while_code_fin ].
Qed.

(** X11.  A [while] statement that compiles: the conditional jump after the
    condition targets the address after the statement, and the last
    instruction of the statement is a jump back to the address at which
    the code of the condition starts. *)
Theorem while_layout n s s' vm0 :
  id (token_at s 0) = whilesym ->
  statement MAX_CODE_LENGTH (S n) s = Ret 0%Z s' ->
  exists j2 q, (nextCodeIndex s <= j2 < q)%nat /\
    nextCodeIndex s' = S q /\
    vmCode vm0 (vmStores s') j2
      = mkInstruction JPC 0 0 (Z.of_nat (nextCodeIndex s')) /\
    vmCode vm0 (vmStores s') q
      = mkInstruction JMP 0 0 (Z.of_nat (nextCodeIndex s)) /\
    forall a, (a < nextCodeIndex s)%nat ->
      vmCode vm0 (vmStores s') a = vmCode vm0 (vmStores s) a.
Proof.
  intros Hw E. pose proof (while_stores n s Hw) as W.
  unfold wp in W. rewrite E in W.
  destruct (W eq_refl) as (j2 & q & t_c & t_b & V & Gc & Gb & N). clear W.
  pose proof (seg_le _ _ _ Gc) as Lc. pose proof (seg_le _ _ _ Gb) as Lb.
  exists j2, q. split; [lia|]. split; [exact N|].
  rewrite V, N. split; [| split].
  - rewrite vmCode_patch_same.
    rewrite vmCode_instr_other by lia.
    rewrite (vmCode_seg_skip _ _ _ _ _ _ Gb) by lia.
    rewrite vmCode_instr_same. reflexivity.
  - rewrite vmCode_patch_other by lia. apply vmCode_instr_same.
  - intros a Ha.
    rewrite vmCode_patch_other by lia.
    rewrite vmCode_instr_other by lia.
    rewrite (vmCode_seg_skip _ _ _ _ _ _ Gb) by lia.
    rewrite vmCode_instr_other by lia.
    apply (vmCode_seg_skip _ _ _ _ _ _ Gc). lia.
Qed.

End Loop.

(* ================================================================== *)
(** ** Further properties: statements of the theorems *)

Section More.
Variable MAX_CODE_LENGTH : nat.

(** X12.  A block that succeeds leaves [currentLevel] and [currentScope] as it
    found them, whatever procedures were declared and compiled inside. *)
Theorem block_restores_scope heap fuel s s' :
  level_ok s ->
  block MAX_CODE_LENGTH heap fuel s = Ret 0%Z s' ->
  currentLevel s' = currentLevel s /\ currentScope s' = currentScope s.
Proof.
  intros L E. destruct (block_keeps MAX_CODE_LENGTH heap fuel) as (_ & Hb).
  specialize (Hb s L). unfold wp in Hb. rewrite E in Hb.
  exact (Hb eq_refl).
Qed.

(** X13.  An expression that is accepted has written exactly one instruction,
    a [LIT] or a [LOD]: no operator of the expression is compiled. *)
Theorem expression_emits_one_load fuel s s' :
  expression MAX_CODE_LENGTH fuel s = Ret 0%Z s' ->
  exists i, is_load i /\
    vmStores s' = StInstr (nextCodeIndex s) i :: vmStores s /\
    nextCodeIndex s' = S (nextCodeIndex s).
Proof.
  intros E.
  destruct (expression_level_loads MAX_CODE_LENGTH fuel) as (_ & _ & _ & _ & He).
  specialize (He s). unfold wp in He. rewrite E in He.
  exact (He eq_refl).
Qed.

(** X14.  On a token that starts none of its branches, [statement] returns 0
    and leaves every global as it is: the empty statement. *)
Theorem empty_statement n s :
  starts_statement (id (token_at s 0)) = false ->
  statement MAX_CODE_LENGTH (S n) s = Ret 0%Z s.
Proof.
  unfold token_at, starts_statement. rewrite Nat.add_0_r. intros H.
  repeat match type of H with
  | _ || _ = false => apply orb_false_elim in H; destruct H as [H ?]
  end.
  simpl. unfold bind. simpl.
  repeat match goal with
  | E : token_type_eqb _ _ = false |- _ => rewrite E; clear E
  end.
  reflexivity.
Qed.

End More.


(* ================================================================== *)
(** ** Further properties: the level difference of calls and stores *)

Lemma level_of_scope_app t u sc :
  scope_in (List.length t) sc ->
  level_of_scope (t ++ u) sc = level_of_scope t sc.
Proof.
  destruct sc as [p |]; simpl; intros H; [| reflexivity].
  now rewrite nth_error_app1.
Qed.

Lemma scope_in_le n k sc : scope_in n sc -> (n <= k)%nat -> scope_in k sc.
Proof. destruct sc; simpl; intros; [lia | exact I]. Qed.

Lemma table_ok_scope t i x :
  table_ok t -> nth_error t i = Some x -> scope_in (List.length t) (scope x).
Proof.
  intros H E. destruct (H i x E) as [S _].
  apply (scope_in_le i); [exact S|].
  apply Nat.lt_le_incl. apply nth_error_Some. congruence.
Qed.

Lemma table_ok_add t x :
  table_ok t ->
  scope_in (List.length t) (scope x) ->
  level x = level_of_scope t (scope x) ->
  table_ok (addSymbol t x).
Proof.
  unfold addSymbol. intros H S L i y E.
  destruct (Nat.lt_ge_cases i (List.length t)) as [Hi | Hi].
  - rewrite nth_error_app1 in E by exact Hi.
    destruct (H i y E) as [Sy Ly]. split; [exact Sy|].
    rewrite level_of_scope_app; [exact Ly|].
    apply (table_ok_scope t i); assumption.
  - rewrite nth_error_app2 in E by exact Hi.
    destruct (i - List.length t)%nat as [| k] eqn:D; simpl in E.
    + inversion E; subst y. split.
      * apply (scope_in_le (List.length t)); [exact S | exact Hi].
      * rewrite level_of_scope_app; assumption.
    + destruct k; discriminate E.
Qed.

Lemma level_of_scope_range t sc : (0 <= level_of_scope t sc < 2 ^ 32)%Z.
Proof.
  unfold level_of_scope. destruct sc as [p |]; [| split; [lia | reflexivity]].
  destruct (nth_error t p); [apply wrap_unsigned_range | split; [lia | reflexivity]].
Qed.

Lemma context_level_ok s : context_ok s -> level_ok s.
Proof.
  intros (_ & _ & L). unfold level_ok. rewrite L. apply level_of_scope_range.
Qed.

Lemma find_in_scope_In t sc nm x :
  find_in_scope t sc nm = Some x -> In x t /\ scope_eqb (scope x) sc = true.
Proof.
  induction t as [| y t IH]; simpl; [discriminate|].
  destruct (find_in_scope t sc nm) as [z |].
  - intros E. inversion E; subst z. destruct (IH eq_refl). auto.
  - destruct (String.eqb (name y) nm && scope_eqb (scope y) sc) eqn:B;
      [| discriminate].
    intros E. inversion E; subst y.
    apply andb_true_iff in B. destruct B. auto.
Qed.

Lemma find_from_In hops t sc nm x :
  find_from hops t sc nm = Some x -> In x t.
Proof.
  revert sc. induction hops as [| h IH]; intros sc; simpl.
  - destruct (find_in_scope t sc nm) eqn:E.
    + intros H. inversion H; subst. apply (find_in_scope_In _ _ _ _ E).
    + destruct sc; discriminate.
  - destruct (find_in_scope t sc nm) eqn:E.
    + intros H. inversion H; subst. apply (find_in_scope_In _ _ _ _ E).
    + destruct sc as [p |]; [| discriminate].
      destruct (nth_error t p); [apply IH | discriminate].
Qed.

Lemma findSymbol_In t sc nm x : findSymbol t sc nm = Some x -> In x t.
Proof. apply find_from_In. Qed.

Lemma scope_eqb_eq a b : scope_eqb a b = true -> a = b.
Proof.
  destruct a, b; simpl; try discriminate; try reflexivity.
  intros H. apply Nat.eqb_eq in H. now subst.
Qed.

(** A symbol of the current scope is at the current level. *)
Lemma same_scope_level_diff s nm x :
  context_ok s ->
  findSymbol (symbolTable s) (currentScope s) nm = Some x ->
  negb (scope_eqb (scope x) (currentScope s)) = false ->
  level_diff (currentLevel s) x = 0%Z.
Proof.
  intros (T & _ & L) F E.
  apply negb_false_iff, scope_eqb_eq in E.
  apply findSymbol_In, In_nth_error in F. destruct F as [i Hi].
  destruct (T i x Hi) as [_ Lx].
  unfold level_diff. rewrite L, Lx, E, Z.sub_diag. reflexivity.
Qed.

Lemma context_ok_add s x s1 :
  context_ok s ->
  level x = currentLevel s -> scope x = currentScope s ->
  symbolTable s1 = addSymbol (symbolTable s) x ->
  currentLevel s1 = currentLevel s ->
  currentScope s1 = currentScope s ->
  context_ok s1.
Proof.
  intros (T & S & L) Lx Sx E1 E2 E3. unfold context_ok.
  rewrite E1, E2, E3.
  assert (T' : table_ok (addSymbol (symbolTable s) x)).
  { apply table_ok_add; [exact T | now rewrite Sx | now rewrite Lx, Sx]. }
  split; [exact T'|]. unfold addSymbol in *. split.
  - apply (scope_in_le _ _ _ S). rewrite length_app. lia.
  - rewrite level_of_scope_app; assumption.
Qed.

(** Entering the block of a procedure just declared. *)
Lemma context_ok_enter s x s1 :
  context_ok s ->
  level x = currentLevel s -> scope x = currentScope s ->
  symbolTable s1 = addSymbol (symbolTable s) x ->
  currentLevel s1 = wrap_unsigned (currentLevel s + 1) ->
  currentScope s1 = Some (List.length (symbolTable s)) ->
  context_ok s1.
Proof.
  intros (T & S & L) Lx Sx E1 E2 E3. unfold context_ok.
  rewrite E1, E2, E3.
  assert (T' : table_ok (addSymbol (symbolTable s) x)).
  { apply table_ok_add; [exact T | now rewrite Sx | now rewrite Lx, Sx]. }
  split; [exact T'|]. unfold addSymbol in *. split.
  - simpl. rewrite length_app. simpl. lia.
  - simpl. rewrite nth_error_app2 by lia. rewrite Nat.sub_diag. simpl.
    now rewrite Lx.
Qed.

(** Leaving it. *)
Lemma context_ok_leave s s1 s2 added :
  context_ok s -> context_ok s1 ->
  symbolTable s1 = symbolTable s ++ added ->
  symbolTable s2 = symbolTable s1 ->
  currentLevel s2 = currentLevel s ->
  currentScope s2 = currentScope s ->
  context_ok s2.
Proof.
  intros (T & S & L) (T1 & _ & _) E E1 E2 E3. unfold context_ok.
  rewrite E1, E2, E3. split; [exact T1|]. rewrite E. split.
  - apply (scope_in_le _ _ _ S). rewrite length_app. lia.
  - rewrite level_of_scope_app; assumption.
Qed.

Lemma context_ok_same s s1 :
  context_ok s ->
  symbolTable s1 = symbolTable s ->
  currentLevel s1 = currentLevel s ->
  currentScope s1 = currentScope s ->
  context_ok s1.
Proof. unfold context_ok. intros H -> -> ->. exact H. Qed.

Ltac untouched_fin :=
  lazymatch goal with
  | |- untouched _ _ _ =>
      let Z := fresh "Z" in
      unfold untouched in *; intros Z;
      first
        [ discriminate Z
        | congruence
        | repeat match goal with
          | H : 0%Z = 0%Z -> _ |- _ => destruct (H eq_refl) as (? & ? & ?); clear H
          | H : ?v = 0%Z -> _ |- _ => destruct (H Z) as (? & ? & ?); clear H
          end;
          proj_simpl; repeat split; congruence ]
  end.

Ltac untouched_go :=
  repeat first
    [ wp_prim
    | match goal with H : _ |- wp _ _ _ _ => post_call H end
    | untouched_fin ].

(** [context_ok] of a state put together from one that has it. *)
Ltac ctx_tac :=
  first
    [ assumption
    | lazymatch goal with
      | |- context_ok ?S =>
          let t := eval cbn [symbolTable] in (symbolTable S) in
          lazymatch t with
          | symbolTable ?x =>
              apply (context_ok_same x);
              [ assumption | reflexivity
              | proj_simpl; congruence | proj_simpl; congruence ]
          | addSymbol (symbolTable ?x) ?y =>
              apply (context_ok_add x y);
              [ assumption | reflexivity | reflexivity | reflexivity
              | proj_simpl; congruence | proj_simpl; congruence ]
          end
      end ].

Ltac local_hyps Z :=
  repeat match goal with
  | H : local _ 0%Z _ |- _ =>
      destruct (H eq_refl) as (? & (? & ?) & ? & ? & (? & ? & ?)); clear H
  | H : local _ ?v _ |- _ =>
      destruct (H Z) as (? & (? & ?) & ? & ? & (? & ? & ?)); clear H
  end.

Ltac local_call H :=
  eapply wp_mono;
  [ apply H; solve [ local_hyps I; proj_simpl; ctx_tac ] |];
  let v := fresh "v" in let s := fresh "s" in let P := fresh "P" in
  intros v s P; cbv beta; proj_simpl.

Ltac rewrite_tables :=
  repeat match goal with
  | H : symbolTable ?s = _ |- context [symbolTable ?s] => rewrite H
  end.

Ltac forall_local :=
  repeat first
    [ apply Forall_nil
    | assumption
    | apply Forall_cons;
      [ first
          [ exact I
          | solve [ simpl; intros [? | ?]; discriminate ]
          | solve [ simpl; intros _; eapply same_scope_level_diff; eassumption ] ]
      |]
    | apply Forall_app; split ].

Ltac local_fin :=
  lazymatch goal with
  | |- local ?s0 ?v ?s =>
      let Z := fresh "Z" in
      intros Z;
      first
        [ discriminate Z
        | congruence
        | local_hyps Z; proj_simpl;
          split; [| split; [| split; [| split]]];
          [ ctx_tac
          | rewrite_tables; unfold addSymbol;
            first [ exists []; rewrite app_nil_r; reflexivity
                  | eexists; rewrite <- ?app_assoc; reflexivity ]
          | congruence
          | congruence
          | rewrite_stores;
            lazymatch goal with
            | |- exists t, ?X = _ /\ _ =>
                let t := stores_since X (vmStores s0) in
                exists t; split
            end;
            [ repeat (progress (simpl; rewrite <- ?app_assoc)); reflexivity
            | forall_local ] ] ]
  end.

Ltac local_go :=
  repeat first
    [ wp_prim
    | match goal with H : _ |- wp _ _ _ _ => local_call H end
    | local_fin ].

Section Local.
Variable MAX_CODE_LENGTH : nat.

Lemma expression_level_untouched fuel :
  (forall s, wp True (factor MAX_CODE_LENGTH fuel) (untouched s) s) /\
  (forall o s, wp True (term_loop MAX_CODE_LENGTH fuel o) (untouched s) s) /\
  (forall s, wp True (term MAX_CODE_LENGTH fuel) (untouched s) s) /\
  (forall o s, wp True (expression_loop MAX_CODE_LENGTH fuel o) (untouched s) s) /\
  (forall s, wp True (expression MAX_CODE_LENGTH fuel) (untouched s) s).
Proof.
  induction fuel as [| n (IHf & IHtl & IHt & IHel & IHe)].
  - repeat split; intros; exact I.
  - repeat split; intros; simpl; untouched_go.
Qed.

Lemma expression_locally fuel : locally (expression MAX_CODE_LENGTH fuel).
Proof.
  intros s C.
  destruct (expression_level_untouched fuel) as (_ & _ & _ & _ & Hu).
  destruct (expression_level_loads MAX_CODE_LENGTH fuel) as (_ & _ & _ & _ & Hl).
  specialize (Hu s). specialize (Hl s). unfold wp in *.
  destruct (expression MAX_CODE_LENGTH fuel s) as [v s' | | |]; try exact I.
  intros Z. destruct (Hu Z) as (T & L & S). destruct (Hl Z) as (i & Li & V & _).
  split; [apply (context_ok_same s); assumption|].
  split; [exists []; now rewrite app_nil_r|].
  split; [exact L|]. split; [exact S|].
  exists [StInstr (nextCodeIndex s) i]. split; [exact V|].
  constructor; [| constructor]. simpl.
  destruct Li as [E | E]; rewrite E; intros [? | ?]; discriminate.
Qed.

Lemma const_declaration_locally heap fuel :
  locally (const_declaration heap fuel).
Proof.
  induction fuel as [| n IH]; intros s C; [exact I|].
  simpl. local_go.
Qed.

Lemma var_declaration_locally heap fuel :
  locally (var_declaration MAX_CODE_LENGTH heap fuel).
Proof.
  induction fuel as [| n IH]; intros s C; [exact I|].
  simpl. local_go.
Qed.

Lemma condition_locally fuel : locally (condition MAX_CODE_LENGTH fuel).
Proof.
  destruct fuel as [| n]; intros s C; [exact I|].
  pose proof (expression_locally n) as He.
  unfold locally in He. simpl. local_go.
Qed.

Lemma statement_locally fuel :
  locally (statement_list MAX_CODE_LENGTH fuel) /\
  locally (statement MAX_CODE_LENGTH fuel).
Proof.
  induction fuel as [| n (IHl & IHs)].
  - split; intros s C; exact I.
  - pose proof (condition_locally n) as Hc.
    pose proof (expression_locally n) as He.
    unfold locally in *. split; intros s C; simpl.
    + local_go.
    + local_go.
Qed.

Lemma block_locally heap fuel :
  locally (proc_declaration MAX_CODE_LENGTH heap fuel) /\
  locally (block MAX_CODE_LENGTH heap fuel).
Proof.
  induction fuel as [| n (IHp & IHb)].
  - split; intros s C; exact I.
  - pose proof (const_declaration_locally heap n) as Hc.
    pose proof (var_declaration_locally heap n) as Hv.
    destruct (statement_locally n) as (_ & Hs).
    unfold locally in *. split; intros s C; simpl.
    + (* proc_declaration *)
      local_go.
      eapply wp_mono.
      { apply IHb.
        match goal with
        | |- context_ok ?S =>
            let t := eval cbn [symbolTable] in (symbolTable S) in
            match t with
            | addSymbol _ ?y => apply (context_ok_enter s y)
            end
        end; [exact C | reflexivity ..]. }
      intros v s1 P. cbv beta. wp_prim; [solve [local_go]|].
      destruct (P eq_refl) as (C1 & (added & A1) & L1 & S1 & t1 & V1 & F1).
      clear P. proj_simpl.
      pose proof (context_level_ok s C) as Ls.
      assert (R : wrap_unsigned (currentLevel s1 - 1) = currentLevel s).
      { rewrite L1. apply level_round_trip. exact Ls. }
      repeat wp_prim; [intros Z; discriminate Z|].
      eapply wp_mono.
      { apply IHp.
        eapply (context_ok_leave s s1);
          [ exact C | exact C1
          | rewrite A1; unfold addSymbol; rewrite <- app_assoc; reflexivity
          | reflexivity | exact R | reflexivity ]. }
      intros v2 s3 P2 Z.
      destruct (P2 Z) as (C3 & (added2 & A2) & L2 & S2 & t2 & V2 & F2).
      proj_simpl.
      split; [exact C3|].
      split.
      { rewrite A2, A1. unfold addSymbol. rewrite <- !app_assoc.
        eexists. reflexivity. }
      split; [congruence|]. split; [exact S2|].
      exists (t2 ++ t1). split.
      { rewrite V2, V1. now rewrite app_assoc. }
      apply Forall_app. split; assumption.
    + local_go.
Qed.

(** X15.  In the code of an accepted program every [CAL] and every [STO] has
    level difference 0: the callee of a [call] and the target of a [read]
    are symbols of the scope the statement is in, declared at the level
    the statement is at. *)
Theorem calls_and_stores_are_local heap tokens vm0 out :
  codeGenerator MAX_CODE_LENGTH heap tokens vm0 = Returned 0 out ->
  Forall (fun i => op i = CAL \/ op i = STO -> l i = 0%Z) out.
Proof.
  intros H. apply accepted_inv in H. destruct H as (s & E & -> & _).
  destruct (block_locally heap (fuel_of tokens)) as (_ & Hb).
  assert (C0 : context_ok (entry_state tokens)).
  { unfold context_ok, entry_state, initSymbolTable. simpl.
    split; [| split; [exact I | reflexivity]].
    intros i x Hi. destruct i; discriminate Hi. }
  assert (W : wp True (program MAX_CODE_LENGTH heap (fuel_of tokens))
                (local (entry_state tokens)) (entry_state tokens)).
  { unfold locally in Hb. unfold program. local_go. }
  unfold wp in W. rewrite E in W.
  destruct (W eq_refl) as (_ & _ & _ & _ & t & V & F). clear W.
  simpl in V. rewrite app_nil_r in V.
  destruct (program_stores _ _ _ _ _ E) as [G _].
  unfold printEmittedCodes. apply Forall_forall. intros i Hi.
  apply in_map_iff in Hi. destruct Hi as (a & <- & Ha). apply in_seq in Ha.
  destruct (vmCode_op_l vm0 (vmStores s) a) as (j & Hj & Ej & El).
  { apply (seg_covered _ _ _ a G). lia. }
  rewrite Ej, El. rewrite V in Hj.
  exact (proj1 (Forall_forall _ _) F _ Hj).
Qed.

End Local.

(* ================================================================== *)
(** ** Further properties on examples *)

Module Further_examples.
Import Programs Further_programs.

Lemma no_arithmetic_printed_witness :
  Forall (fun i => arithmetic (op i) = false)
    (printed (codeGenerator 12 zeroed if_else blank)).
Proof.
  apply (no_arithmetic_printed 12 zeroed if_else blank 0%Z). vm_compute. reflexivity.
Defined.

Lemma error_codes_bounded_witness : (0 <= 17 <= 19)%Z.
Proof.
  apply (error_codes_bounded 3 zeroed scenario_3 blank 17%Z []). vm_compute. reflexivity.
Defined.

Lemma accepted_code_frame_witness :
  exists p q, (0 < p < q)%nat /\
    List.length (printed (codeGenerator 12 zeroed if_else blank)) = (q + 2)%nat /\
    nth_error (printed (codeGenerator 12 zeroed if_else blank)) 0
      = Some (mkInstruction JMP 0 0 (Z.of_nat p)) /\
    nth_error (printed (codeGenerator 12 zeroed if_else blank)) p
      = Some (mkInstruction INC 0 0 4) /\
    nth_error (printed (codeGenerator 12 zeroed if_else blank)) q
      = Some (mkInstruction RTN 0 0 0) /\
    nth_error (printed (codeGenerator 12 zeroed if_else blank)) (S q)
      = Some (mkInstruction SIO_HALT 0 0 3).
Proof.
  apply (accepted_code_frame 12 zeroed if_else blank). vm_compute. reflexivity.
Defined.

Lemma block_restores_scope_witness :
  let s := entry_state one_procedure in
  let s' := state_after (block 8 zeroed 5 s) s in
  currentLevel s' = currentLevel s /\ currentScope s' = currentScope s.
Proof.
  apply (block_restores_scope 8 zeroed 5); vm_compute;
    [split; [discriminate | reflexivity] | reflexivity].
Defined.

Lemma expression_emits_one_load_witness :
  let s := before_rhs zeroed sum in
  let s' := state_after (expression 8 4 s) s in
  exists i, is_load i /\
    vmStores s' = StInstr (nextCodeIndex s) i :: vmStores s /\
    nextCodeIndex s' = S (nextCodeIndex s).
Proof.
  apply (expression_emits_one_load 8 4). vm_compute. reflexivity.
Defined.

Lemma empty_statement_witness :
  statement 8 1 (entry_state [tk periodsym "."])
    = Ret 0%Z (entry_state [tk periodsym "."]).
Proof. apply (empty_statement 8 0). vm_compute. reflexivity. Defined.

Lemma var_declaration_group_witness :
  let s := entry_state two_vars in
  let s' := state_after (var_declaration 8 zeroed 3 s) s in
  exists n, (1 <= n)%nat /\
    symbolTable s' = fold_left addSymbol (declared_vars zeroed s n) (symbolTable s) /\
    vmStores s' = var_increments s n ++ vmStores s /\
    nextCodeIndex s' = (nextCodeIndex s + n)%nat /\
    currentTokenInd s' = (currentTokenInd s + 2 * n + 1)%nat /\
    tokenList s' = tokenList s /\
    currentLevel s' = currentLevel s /\ currentScope s' = currentScope s.
Proof.
  apply (var_declaration_group 8 zeroed 3). vm_compute. reflexivity.
Defined.

Lemma const_declaration_group_witness :
  let s := entry_state two_consts in
  let s' := state_after (const_declaration zeroed 3 s) s in
  exists n, (1 <= n)%nat /\
    symbolTable s' = fold_left addSymbol (declared_consts zeroed s n) (symbolTable s) /\
    vmStores s' = vmStores s /\
    nextCodeIndex s' = nextCodeIndex s /\
    currentTokenInd s' = (currentTokenInd s + 4 * n + 1)%nat /\
    tokenList s' = tokenList s /\
    currentLevel s' = currentLevel s /\ currentScope s' = currentScope s.
Proof.
  apply (const_declaration_group zeroed 3). vm_compute. reflexivity.
Defined.

Lemma while_layout_witness :
  let s := in_main zeroed a_loop in
  let s' := state_after (statement 12 8 s) s in
  exists j2 q, (nextCodeIndex s <= j2 < q)%nat /\
    nextCodeIndex s' = S q /\
    vmCode blank (vmStores s') j2
      = mkInstruction JPC 0 0 (Z.of_nat (nextCodeIndex s')) /\
    vmCode blank (vmStores s') q
      = mkInstruction JMP 0 0 (Z.of_nat (nextCodeIndex s)) /\
    forall a, (a < nextCodeIndex s)%nat ->
      vmCode blank (vmStores s') a = vmCode blank (vmStores s) a.
Proof.
  apply (while_layout 12 7); vm_compute; reflexivity.
Defined.

Lemma expression_unsigned_is_term_witness :
  expression 8 4 (before_rhs zeroed sum) = term 8 3 (before_rhs zeroed sum).
Proof.
  apply (expression_unsigned_is_term 8 2 (before_rhs zeroed sum));
    vm_compute; discriminate.
Defined.

Lemma expression_signed_fails_witness :
  expression 8 4 (before_rhs zeroed negation)
    <> Ret 0%Z (before_rhs zeroed negation).
Proof.
  apply (expression_signed_fails 8 4 (before_rhs zeroed negation)).
  vm_compute. reflexivity.
Defined.

Lemma condition_bad_operator_witness :
  condition 8 5 (before_rhs zeroed sum)
    = Ret 12%Z (state_after (expression 8 4 (before_rhs zeroed sum)) (before_rhs zeroed sum)).
Proof.
  apply (condition_bad_operator 8 4 (before_rhs zeroed sum)); vm_compute;
    [discriminate | reflexivity | reflexivity].
Defined.

Lemma calls_and_stores_are_local_witness :
  Forall (fun i => op i = CAL \/ op i = STO -> l i = 0%Z)
    (printed (codeGenerator 16 zeroed call_and_read blank)).
Proof.
  apply (calls_and_stores_are_local 16 zeroed call_and_read blank).
  vm_compute. reflexivity.
Defined.

End Further_examples.
